(** * calimporter / calsync: the description codec and the reconciler

    A shallow embedding of [events.go], [calimporter.go] and the write
    path of [calendar.go], with the properties of the specification
    stated over it.

    Go strings are byte sequences: they are [string]s here (lists of
    8-bit [ascii]).  A Go [map[string]*Event] is a [gmap string Event].
    A [time.Time] is an instant together with a zone offset; [Equal] and
    [Before] look at the instant only, as in Go. *)

From Stdlib Require Import ZArith Ascii String.
From stdpp Require Import base option list strings gmap fin_maps.

Open Scope Z_scope.
Open Scope nat_scope.

(** ** The part of Go's [strings] package and of string slicing that the
    code uses *)

Module strings.

(** [s[n:]] *)
Fixpoint sliceFrom (s : string) (n : nat) {struct n} : string :=
  match n, s with
  | 0, _ => s
  | S n', String _ s' => sliceFrom s' n'
  | S _, EmptyString => EmptyString
  end.

(** [s[:n]] *)
Fixpoint sliceTo (s : string) (n : nat) {struct n} : string :=
  match n, s with
  | 0, _ => EmptyString
  | S n', String c s' => String c (sliceTo s' n')
  | S _, EmptyString => EmptyString
  end.

(** [s[lo:hi]].  Go panics when the indices are out of range; every
    call below is guarded so that they are in range. *)
Definition slice (s : string) (lo hi : nat) : string :=
  sliceTo (sliceFrom s lo) (hi - lo).

(** [strings.HasPrefix(s, pre)] *)
Fixpoint HasPrefix (s pre : string) {struct pre} : bool :=
  match pre, s with
  | EmptyString, _ => true
  | String _ _, EmptyString => false
  | String c pre', String d s' => Ascii.eqb c d && HasPrefix s' pre'
  end.

(** [strings.Index(s, sep)]: the byte index of the first occurrence of
    [sep] in [s]; Go's [-1] is [None]. *)
Fixpoint Index (s sep : string) : option nat :=
  if HasPrefix s sep then Some 0
  else match s with
       | EmptyString => None
       | String _ s' => S <$> Index s' sep
       end.

(** [strings.Contains(s, sep)], which is [Index(s, sep) >= 0]. *)
Definition Contains (s sep : string) : bool :=
  match Index s sep with Some _ => true | None => false end.

(** [strings.SplitN(s, sep, 2)] for a non-empty [sep]: cut at the first
    occurrence of [sep], or return [s] alone. *)
Definition SplitN2 (s sep : string) : list string :=
  match Index s sep with
  | Some m => [sliceTo s m; sliceFrom s (m + String.length sep)]
  | None => [s]
  end.

End strings.

(** ** events.go: the description codec *)

Definition newline : ascii := "010"%char.
Definition nl : string := String newline EmptyString.

Definition delim : string := "====================".

Record description := mkDescription { prefix : string; suffix : string }.

Definition parseDescription (s : string) : description :=
  match strings.SplitN2 s delim with
  | [tok0; tok1] =>
      let p := tok0 in
      let q := tok1 in
      let l := String.length p in
      let p :=
        if negb (l =? 0) && bool_decide (String.get (l - 1) p = Some newline)
        then strings.slice p 0 (l - 1) else p in
      let l := String.length q in
      let q :=
        if negb (l =? 0) && bool_decide (String.get 0 q = Some newline)
        then strings.sliceFrom q 1 else q in
      mkDescription p q
  | _ => mkDescription EmptyString s
  end.

(** [(d *description) String()] *)
Definition description_String (d : description) : string :=
  if bool_decide (prefix d = EmptyString)
  then delim +:+ nl +:+ suffix d
  else prefix d +:+ nl +:+ delim +:+ nl +:+ suffix d.

(** ** time.Time, as far as the code looks at it *)

Record Time := mkTime {
  instant : Z;   (* the time instant, in nanoseconds since the epoch *)
  zone : Z       (* the location, as an offset from UTC in seconds *)
}.

(** [t.Equal(u)]: the same instant; the locations are not compared. *)
Definition Time_Equal (t u : Time) : bool := (instant t =? instant u)%Z.

(** [t.Before(u)] *)
Definition Time_Before (t u : Time) : bool := (instant t <? instant u)%Z.

(** ** events.go: Event *)

Record Event := mkEvent {
  Title : string;
  Start : Time;
  End_ : Time;
  Where : string;
  Description : string;
  SrcID : string;
  calEventID : string
}.

Definition exportedDescription (ev : Event) : string :=
  description_String (parseDescription (Description ev)).

Definition equal (ev other : Event) : bool :=
  if negb (bool_decide (Title ev = Title other)) then false
  else if negb (Time_Equal (Start ev) (Start other)) then false
  else if negb (Time_Equal (End_ ev) (End_ other)) then false
  else if negb (bool_decide (Where ev = Where other)) then false
  else
    let d := parseDescription (Description ev) in
    let otherD := parseDescription (Description other) in
    if negb (bool_decide (suffix d = suffix otherD)) then false
    else if negb (bool_decide (SrcID ev = SrcID other)) then false
    else true.

(** [ev.newUpdate(srcEv)]: a copy of [srcEv] with the calendar id of [ev]
    and a description that keeps the prefix found in the calendar. *)
Definition newUpdate (ev srcEv : Event) : Event :=
  let calDescription := parseDescription (Description ev) in
  let updateDescription :=
    mkDescription (prefix calDescription) (Description srcEv) in
  {| Title := Title srcEv;
     Start := Start srcEv;
     End_ := End_ srcEv;
     Where := Where srcEv;
     Description := description_String updateDescription;
     SrcID := SrcID srcEv;
     calEventID := calEventID ev |}.

(** ** calimporter.go: Changes and getOperations *)

Record Changes := mkChanges {
  Deletes : list Event;
  Updates : list Event;
  Adds : list Event
}.

(** The body of the first loop: events that ended before [now] are
    skipped, the others are stored under their [SrcID]. *)
Definition srcMapStep (now : Time) (srcMap : gmap string Event) (ev : Event)
  : gmap string Event :=
  if Time_Before (End_ ev) now then srcMap
  else <[SrcID ev := ev]> srcMap.

Definition buildSrcMap (now : Time) (srcEvents : list Event)
  : gmap string Event :=
  foldl (srcMapStep now) ∅ srcEvents.

(** The body of the second loop, on the pair of [changes] and [srcMap]. *)
Definition calStep (st : Changes * gmap string Event) (calEv : Event)
  : Changes * gmap string Event :=
  let '(changes, srcMap) := st in
  match srcMap !! SrcID calEv with
  | Some srcEv =>
      let changes :=
        if negb (equal srcEv calEv)
        then mkChanges (Deletes changes)
                       (Updates changes ++ [newUpdate calEv srcEv])
                       (Adds changes)
        else changes in
      (changes, delete (SrcID calEv) srcMap)
  | None =>
      (mkChanges (Deletes changes ++ [calEv]) (Updates changes) (Adds changes),
       srcMap)
  end.

(** The third loop ranges over the map.  Go leaves the order of a map
    range unspecified; [map_to_list] fixes one enumeration, and the
    statements about [Adds] below do not depend on which. *)
Definition getOperations (now : Time) (calEvents srcEvents : list Event)
  : Changes :=
  let changes := mkChanges [] [] [] in
  let srcMap := buildSrcMap now srcEvents in
  let '(changes, srcMap) := foldl calStep (changes, srcMap) calEvents in
  mkChanges (Deletes changes) (Updates changes)
            (Adds changes ++ (map_to_list srcMap).*2).

(** ** calendar.go: the write path *)

Record cal := mkCal {
  privateKey : string;
  calID : string;
  nop : bool
}.

(** The fields of [calendar.Event] that [makeCalEvent] fills in. *)
Record calendarEvent := mkCalendarEvent {
  ce_Summary : string;
  ce_Location : string;
  ce_Description : string;
  ce_StartDateTime : string;
  ce_EndDateTime : string;
  ce_Private : gmap string string
}.

(** A request sent to the calendar service. *)
Inductive request :=
  | EventsDelete (calendarId eventId : string)
  | EventsUpdate (calendarId eventId : string) (body : calendarEvent)
  | EventsInsert (calendarId : string) (body : calendarEvent).

(** The description a request writes to the remote store, if any. *)
Definition writtenDescription (rq : request) : option string :=
  match rq with
  | EventsDelete _ _ => None
  | EventsUpdate _ _ body => Some (ce_Description body)
  | EventsInsert _ body => Some (ce_Description body)
  end.

Section Calendar.

(** [t.Format(time.RFC3339)] *)
Variable formatRFC3339 : Time → string.

(** The calendar service: whether a request succeeds. *)
Variable serve : request → bool.

Definition idKey (c : cal) : string := privateKey c +:+ "ID".

Definition makeCalEvent (c : cal) (ev : Event) : calendarEvent :=
  {| ce_Summary := Title ev;
     ce_Location := Where ev;
     ce_Description := exportedDescription ev;
     ce_StartDateTime := formatRFC3339 (Start ev);
     ce_EndDateTime := formatRFC3339 (End_ ev);
     ce_Private :=
       <[idKey c := SrcID ev]> (<[privateKey c := "True"]> ∅) |}.

(** An operation takes the requests sent so far and returns whether it
    succeeded ([err == nil]) together with the requests sent. *)
Definition op : Type := list request → bool * list request.

Definition send (rq : request) : op :=
  fun sent => (serve rq, sent ++ [rq]).

Definition remove (c : cal) (ev : Event) : op :=
  if nop c then fun sent => (true, sent)
  else send (EventsDelete (calID c) (calEventID ev)).

Definition update (c : cal) (ev : Event) : op :=
  if nop c then fun sent => (true, sent)
  else send (EventsUpdate (calID c) (calEventID ev) (makeCalEvent c ev)).

Definition add (c : cal) (ev : Event) : op :=
  if nop c then fun sent => (true, sent)
  else send (EventsInsert (calID c) (makeCalEvent c ev)).

(** [for _, ev := range evs { if err = f(ev); err != nil { return } }] *)
Fixpoint forEach (f : Event → op) (evs : list Event) : op :=
  fun sent =>
    match evs with
    | [] => (true, sent)
    | ev :: evs' =>
        let '(ok, sent') := f ev sent in
        if ok then forEach f evs' sent' else (false, sent')
    end.

(** The three loops of [Import] / [Sync]: the deletes, then the updates,
    then the adds, stopping at the first error. *)
Definition applyChanges (c : cal) (changes : Changes) : op :=
  fun sent =>
    let '(ok, sent) := forEach (remove c) (Deletes changes) sent in
    if negb ok then (false, sent) else
    let '(ok, sent) := forEach (update c) (Updates changes) sent in
    if negb ok then (false, sent) else
    forEach (add c) (Adds changes) sent.

(** [Import] / [Sync] once the calendar events are fetched: compute the
    changes and apply them.  The result is [Some changes] on success. *)
Definition Import (c : cal) (now : Time) (calEvents srcEvents : list Event)
  : option Changes * list request :=
  let changes := getOperations now calEvents srcEvents in
  let '(ok, sent) := applyChanges c changes [] in
  (if ok then Some changes else None, sent).

End Calendar.

(** ** events.go and calendar.go: the read path *)

(** The fields of [calendar.Event] that [parseEvent] reads.  The start
    and the end are taken as present ([in.Start] and [in.End] are
    dereferenced without a check); [ExtendedProperties] may be nil, which
    is [None] here, and its [Private] map is the value otherwise. *)
Record calendarItem := mkCalendarItem {
  ci_Id : string;
  ci_Summary : string;
  ci_Location : string;
  ci_Description : string;
  ci_StartDateTime : string;
  ci_EndDateTime : string;
  ci_ExtendedProperties : option (gmap string string)
}.

(** The errors of [parseEvent], with the text that did not parse. *)
Inductive parseError :=
  | BadStart (dateTime : string)
  | BadEnd (dateTime : string).

(** The errors of [fetch]: the list request failed, or an item did not
    parse. *)
Inductive fetchError :=
  | ListFailed
  | ItemFailed (summary : string) (e : parseError).

(** The [calendar.Event] that [makeCalEvent] builds, read back under the
    id that the calendar gave it. *)
Definition asItem (id : string) (ce : calendarEvent) : calendarItem :=
  {| ci_Id := id;
     ci_Summary := ce_Summary ce;
     ci_Location := ce_Location ce;
     ci_Description := ce_Description ce;
     ci_StartDateTime := ce_StartDateTime ce;
     ci_EndDateTime := ce_EndDateTime ce;
     ci_ExtendedProperties := Some (ce_Private ce) |}.

Section ReadPath.

(** [time.Parse(time.RFC3339, s)]; [None] is an error. *)
Variable parseRFC3339 : string → option Time.

Definition parseEvent (item : calendarItem) (idKey : string)
  : parseError + Event :=
  let title := ci_Summary item in
  match parseRFC3339 (ci_StartDateTime item) with
  | None => inl (BadStart (ci_StartDateTime item))
  | Some start =>
      match parseRFC3339 (ci_EndDateTime item) with
      | None => inl (BadEnd (ci_EndDateTime item))
      | Some end_ =>
          let where_ := ci_Location item in
          let description := ci_Description item in
          let props : gmap string string :=
            match ci_ExtendedProperties item with
            | Some private => private
            | None => ∅
            end in
          (* a missing key reads as the empty string *)
          let srcID := default EmptyString (props !! idKey) in
          inr (mkEvent title start end_ where_ description srcID (ci_Id item))
      end
  end.

(** The loop of [fetch] over the listed items, with the events collected
    so far. *)
Fixpoint parseItems (idKey : string) (items : list calendarItem)
    (events : list Event) : fetchError + list Event :=
  match items with
  | [] => inr events
  | each :: items' =>
      match parseEvent each idKey with
      | inl e => inl (ItemFailed (ci_Summary each) e)
      | inr ev => parseItems idKey items' (events ++ [ev])
      end
  end.

(** [c.fetch], given what the list request returned ([None] when it
    failed). *)
Definition fetch (c : cal) (listResult : option (list calendarItem))
  : fetchError + list Event :=
  match listResult with
  | None => inl ListFailed
  | Some items => parseItems (idKey c) items []
  end.

End ReadPath.

(** ** calimporter.go: options and Sync *)

(** [Opt] is [func(c *cal)]; it is the function from the [cal] before to
    the [cal] after. *)
Definition Opt : Type := cal → cal.

Definition CalendarID (id : string) : Opt :=
  fun c => mkCal (privateKey c) id (nop c).

Definition Nop : Opt :=
  fun c => mkCal (privateKey c) (calID c) true.

(** [newCal]; [calendar.New] fails on a nil client. *)
Definition newCal (clientIsNil : bool) (privateKey : string) : option cal :=
  if clientIsNil then None else Some (mkCal privateKey "primary" false).

(** [for _, o := range opts { o(c) }] *)
Definition applyOpts (c : cal) (opts : list Opt) : cal :=
  foldl (fun c o => o c) c opts.

Section Sync.

Variable formatRFC3339 : Time → string.
Variable parseRFC3339 : string → option Time.
Variable serve : request → bool.

(** What the list request returns for a configuration. *)
Variable list_ : cal → option (list calendarItem).

(** [Sync] ([Import] in calimporter.go) as a whole.  The error of the
    fetch is not looked at: when the fetch fails, the calendar events are
    the nil slice. *)
Definition Sync (clientIsNil : bool) (scope : string) (now : Time)
    (srcEvents : list Event) (opts : list Opt)
  : option Changes * list request :=
  match newCal clientIsNil scope with
  | None => (None, [])
  | Some c =>
      let c := applyOpts c opts in
      let calEvents :=
        match fetch parseRFC3339 c (list_ c) with
        | inr events => events
        | inl _ => []
        end in
      Import formatRFC3339 serve c now calEvents srcEvents
  end.

End Sync.

(** ** Auxiliary definitions for the statements and proofs *)

(** The two trimming steps of [parseDescription], on their own. *)
Definition trimRight (p : string) : string :=
  let l := String.length p in
  if negb (l =? 0) && bool_decide (String.get (l - 1) p = Some newline)
  then strings.slice p 0 (l - 1) else p.

Definition trimLeft (q : string) : string :=
  let l := String.length q in
  if negb (l =? 0) && bool_decide (String.get 0 q = Some newline)
  then strings.sliceFrom q 1 else q.

(** No byte of [s] is a newline. *)
Fixpoint noNewline (s : string) : bool :=
  match s with
  | EmptyString => true
  | String c s' => negb (Ascii.eqb c newline) && noNewline s'
  end.

(** The second loop of [getOperations], started from a given map. *)
Definition calLoop (srcMap : gmap string Event) (calEvents : list Event)
  : Changes * gmap string Event :=
  foldl calStep (mkChanges [] [] [], srcMap) calEvents.

(** What one turn of the second loop appends to [Deletes] and to
    [Updates]. *)
Definition deletesOf (srcMap : gmap string Event) (calEv : Event) : list Event :=
  match srcMap !! SrcID calEv with
  | Some _ => []
  | None => [calEv]
  end.

Definition updatesOf (srcMap : gmap string Event) (calEv : Event) : list Event :=
  match srcMap !! SrcID calEv with
  | Some srcEv => if equal srcEv calEv then [] else [newUpdate calEv srcEv]
  | None => []
  end.

(** The desired events that the first loop does not skip. *)
Definition live (now : Time) (srcEvents : list Event) : list Event :=
  filter (λ ev, Time_Before (End_ ev) now = false) srcEvents.

(** Every value of the map is stored under its own [SrcID]. *)
Definition keyed (m : gmap string Event) : Prop :=
  map_Forall (λ k d, SrcID d = k) m.

(** A partition of the remote and of the desired events by what the
    reconciliation does with them: pairs left alone, pairs updated, remote
    events deleted, desired events added.  The permutations say that each
    occurrence of an event falls in exactly one group. *)
Definition partitioned (remote desired : list Event) (ch : Changes) : Prop :=
  ∃ unchanged updated : list (Event * Event),
    remote ≡ₚ unchanged.*1 ++ updated.*1 ++ Deletes ch ∧
    desired ≡ₚ unchanged.*2 ++ updated.*2 ++ Adds ch ∧
    Updates ch = (λ p, newUpdate p.1 p.2) <$> updated ∧
    Forall (λ p, SrcID p.1 = SrcID p.2 ∧ equal p.2 p.1 = true) unchanged ∧
    Forall (λ p, SrcID p.1 = SrcID p.2 ∧ equal p.2 p.1 = false) updated.

(** The fields that the equality policy of the specification names are
    the same in both events (the description through its managed part). *)
Definition sameContent (r d : Event) : Prop :=
  Title r = Title d ∧ Start r = Start d ∧ End_ r = End_ d ∧
  Where r = Where d ∧ SrcID r = SrcID d ∧
  suffix (parseDescription (Description r)) =
    suffix (parseDescription (Description d)).

(** An event with another description, and with another calendar id. *)
Definition withDescription (ev : Event) (s : string) : Event :=
  mkEvent (Title ev) (Start ev) (End_ ev) (Where ev) s (SrcID ev)
          (calEventID ev).

Definition withCalEventID (ev : Event) (id : string) : Event :=
  mkEvent (Title ev) (Start ev) (End_ ev) (Where ev) (Description ev)
          (SrcID ev) id.

(** ** Sample events *)

Definition utc (n : Z) : Time := mkTime n 0.

(** The scenario of the specification: a remote event with a human note
    and the desired event with a new body. *)
Definition remoteX : Event :=
  mkEvent "old" (utc 100) (utc 200) "here"
          ("human note" +:+ nl +:+ delim +:+ nl +:+ "old body") "x" "cal-1".

Definition desiredX : Event :=
  mkEvent "old" (utc 100) (utc 200) "here" "new body" "x" "".

(** A desired event equal to [remoteX] under the equality policy. *)
Definition sameX : Event :=
  mkEvent "old" (utc 100) (utc 200) "here" "old body" "x" "".

(** [sameX] as seen from a zone one hour east of UTC. *)
Definition sameXEast : Event :=
  mkEvent "old" (mkTime 100 3600) (mkTime 200 3600) "here" "old body" "x" "".

(** A second remote event with the [SrcID] of [remoteX]. *)
Definition remoteX2 : Event :=
  mkEvent "old" (utc 100) (utc 200) "here"
          (delim +:+ nl +:+ "old body") "x" "cal-2".

(** A desired event with another [SrcID]. *)
Definition desiredY : Event :=
  mkEvent "new" (utc 300) (utc 400) "there" "body" "y" "".

(** ** Definitions for the further properties *)

(** The requests that applying [changes] amounts to, in the order of the
    three loops. *)
Definition requestsOf (fmt : Time → string) (c : cal) (changes : Changes)
  : list request :=
  ((λ ev, EventsDelete (calID c) (calEventID ev)) <$> Deletes changes) ++
  ((λ ev, EventsUpdate (calID c) (calEventID ev) (makeCalEvent fmt c ev))
     <$> Updates changes) ++
  ((λ ev, EventsInsert (calID c) (makeCalEvent fmt c ev)) <$> Adds changes).

(** The requests of a list up to and including the first that fails. *)
Fixpoint untilFailure (serve : request → bool) (rqs : list request)
  : list request :=
  match rqs with
  | [] => []
  | rq :: rqs' => rq :: (if serve rq then untilFailure serve rqs' else [])
  end.

(** The options that the package offers. *)
Definition offered (o : Opt) : Prop := o = Nop ∨ ∃ id, o = CalendarID id.


(** A stand-in for the RFC 3339 codec on the instants of the sample
    events. *)
Definition sampleFormat (t : Time) : string :=
  if (instant t =? 100)%Z then "start" else "end".

Definition sampleParse (s : string) : option Time :=
  if bool_decide (s = "start") then Some (utc 100)
  else if bool_decide (s = "end") then Some (utc 200)
  else None.

(** * Properties *)

(** ** Strings *)

Section StringFacts.
Import strings.

Lemma append_cons c (s z : string) : String c s +:+ z = String c (s +:+ z).
Proof. reflexivity. Qed.

Lemma append_empty_l (z : string) : EmptyString +:+ z = z.
Proof. reflexivity. Qed.

Lemma append_assoc (x y z : string) : (x +:+ y) +:+ z = x +:+ y +:+ z.
Proof.
  induction x as [|c x IH]; [reflexivity|].
  rewrite !append_cons. by rewrite IH.
Qed.

Lemma length_append (x y : string) :
  String.length (x +:+ y) = String.length x + String.length y.
Proof.
  induction x as [|c x IH]; [reflexivity|].
  rewrite append_cons. simpl. by rewrite IH.
Qed.

Lemma HasPrefix_app (s z : string) : HasPrefix (s +:+ z) s = true.
Proof.
  induction s as [|c s IH]; [reflexivity|].
  rewrite append_cons. simpl. by rewrite Ascii.eqb_refl, IH.
Qed.

Lemma sliceTo_app (s z : string) : sliceTo (s +:+ z) (String.length s) = s.
Proof.
  induction s as [|c s IH]; [reflexivity|].
  rewrite append_cons. simpl. by rewrite IH.
Qed.

Lemma sliceFrom_app (s z : string) (k : nat) :
  sliceFrom (s +:+ z) (String.length s + k) = sliceFrom z k.
Proof.
  induction s as [|c s IH]; [reflexivity|].
  rewrite append_cons. simpl. apply IH.
Qed.

Lemma sliceFrom_0 (s : string) : sliceFrom s 0 = s.
Proof. reflexivity. Qed.

(** A prefix of [sliceTo s n] is a prefix of [s]. *)
Lemma HasPrefix_sliceTo (s sep : string) (n : nat) :
  HasPrefix (sliceTo s n) sep = true → HasPrefix s sep = true.
Proof.
  revert s n. induction sep as [|c sep IH]; intros s n; [done|].
  destruct n as [|n], s as [|d s]; simpl; try done.
  intros [-> H]%andb_true_iff. simpl. eauto.
Qed.

Lemma HasPrefix_length (s sep : string) :
  HasPrefix s sep = true → String.length sep ≤ String.length s.
Proof.
  revert s. induction sep as [|e sep IH]; intros s; simpl; [lia|].
  destruct s as [|d s]; [done|].
  intros [_ H]%andb_true_iff. apply IH in H. simpl. lia.
Qed.

Lemma HasPrefix_split (s sep : string) :
  HasPrefix s sep = true → s = sep +:+ sliceFrom s (String.length sep).
Proof.
  revert s. induction sep as [|e sep IH]; intros s; simpl.
  - reflexivity.
  - destruct s as [|d s]; [done|].
    intros [Hc H]%andb_true_iff. apply Ascii.eqb_eq in Hc as ->.
    rewrite append_cons. f_equal. by apply IH.
Qed.

Lemma Index_HasPrefix (s sep : string) :
  HasPrefix s sep = true → Index s sep = Some 0.
Proof. intros H. destruct s; simpl; by rewrite H. Qed.

Lemma Index_empty (sep : string) : sep ≠ EmptyString → Index EmptyString sep = None.
Proof. by destruct sep. Qed.

(** What [Index] returns is in range. *)
Lemma Index_le (s sep : string) (m : nat) :
  Index s sep = Some m → m + String.length sep ≤ String.length s.
Proof.
  revert m. induction s as [|c s IH]; intros m; simpl.
  - destruct sep; [|done]. intros [= <-]. simpl. lia.
  - destruct (HasPrefix (String c s) sep) eqn:Hp.
    + intros [= <-]. apply HasPrefix_length in Hp. simpl in *. lia.
    + destruct (Index s sep) as [k|] eqn:Hk; [|done].
      intros [= <-]. specialize (IH _ eq_refl). lia.
Qed.

(** [Index] finds an occurrence: the string is the part before it, the
    separator, and the part after it. *)
Lemma Index_Some_split (s sep : string) (m : nat) :
  Index s sep = Some m →
  s = sliceTo s m +:+ sep +:+ sliceFrom s (m + String.length sep).
Proof.
  revert m. induction s as [|c s IH]; intros m; simpl.
  - destruct sep; [|done]. by intros [= <-].
  - destruct (HasPrefix (String c s) sep) eqn:Hp.
    + intros [= <-]. rewrite append_empty_l. simpl.
      by apply HasPrefix_split.
    + destruct (Index s sep) as [k|] eqn:Hk; [|done].
      intros [= <-]. simpl. rewrite append_cons. f_equal. by apply IH.
Qed.

(** ... and it is the first one: nothing before it contains [sep]. *)
Lemma Index_Some_sliceTo (s sep : string) (m : nat) :
  sep ≠ EmptyString → Index s sep = Some m → Index (sliceTo s m) sep = None.
Proof.
  intros Hsep. revert m. induction s as [|c s IH]; intros m; simpl.
  - destruct sep; done.
  - destruct (HasPrefix (String c s) sep) eqn:Hp.
    + intros [= <-]. simpl. by apply Index_empty.
    + destruct (Index s sep) as [k|] eqn:Hk; [|done].
      intros [= <-]. change (sliceTo (String c s) (S k)) with (String c (sliceTo s k)).
      simpl. destruct (HasPrefix (String c (sliceTo s k)) sep) eqn:Hq.
      * apply (HasPrefix_sliceTo (String c s) sep (S k)) in Hq. congruence.
      * by rewrite IH.
Qed.

Lemma Index_None_sliceTo (s sep : string) (n : nat) :
  sep ≠ EmptyString → Index s sep = None → Index (sliceTo s n) sep = None.
Proof.
  intros Hsep. revert n. induction s as [|c s IH]; intros n; simpl.
  - destruct n; simpl; by destruct sep.
  - destruct (HasPrefix (String c s) sep) eqn:Hp; [done|].
    destruct (Index s sep) as [k|] eqn:Hk; [done|]. intros _.
    destruct n as [|n]; [by apply Index_empty|].
    change (sliceTo (String c s) (S n)) with (String c (sliceTo s n)).
    simpl. destruct (HasPrefix (String c (sliceTo s n)) sep) eqn:Hq.
    + apply (HasPrefix_sliceTo (String c s) sep (S n)) in Hq. congruence.
    + by rewrite IH.
Qed.

(** An occurrence of [sep] is found wherever it is put. *)
Lemma Contains_app (x sep z : string) : Contains (x +:+ sep +:+ z) sep = true.
Proof.
  unfold Contains. induction x as [|c x IH].
  - rewrite append_empty_l.
    by rewrite (Index_HasPrefix _ _ (HasPrefix_app sep z)).
  - rewrite append_cons. simpl.
    destruct (HasPrefix _ sep); [done|].
    by destruct (Index (x +:+ sep +:+ z) sep).
Qed.

Lemma Contains_split (s sep : string) :
  Contains s sep = true ↔ ∃ x z, s = x +:+ sep +:+ z.
Proof.
  split.
  - unfold Contains. destruct (Index s sep) as [m|] eqn:Hm; [|done].
    intros _. eauto using Index_Some_split.
  - intros (x & z & ->). apply Contains_app.
Qed.

End StringFacts.

(** ** The description codec *)

Section Codec.
Import strings.

Lemma parseDescription_found (s : string) (m : nat) :
  Index s delim = Some m →
  parseDescription s =
    mkDescription (trimRight (sliceTo s m))
                  (trimLeft (sliceFrom s (m + String.length delim))).
Proof. intros H. unfold parseDescription, SplitN2. by rewrite H. Qed.

Lemma parseDescription_absent (s : string) :
  Index s delim = None → parseDescription s = mkDescription EmptyString s.
Proof. intros H. unfold parseDescription, SplitN2. by rewrite H. Qed.

Lemma get_app_nl (a z : string) :
  String.get (String.length a) (a +:+ nl +:+ z) = Some newline.
Proof. induction a as [|c a IH]; [reflexivity|]. by rewrite append_cons. Qed.

Lemma trimRight_nl (a : string) : trimRight (a +:+ nl) = a.
Proof.
  unfold trimRight. rewrite length_append. simpl String.length.
  replace (String.length a + 1 - 1) with (String.length a) by lia.
  replace (String.length a + 1 =? 0) with false
    by (symmetry; apply Nat.eqb_neq; lia).
  pose proof (get_app_nl a EmptyString) as Hg.
  rewrite bool_decide_eq_true_2 by done. simpl.
  unfold slice. simpl sliceFrom. rewrite Nat.sub_0_r. apply sliceTo_app.
Qed.

Lemma trimRight_empty : trimRight EmptyString = EmptyString.
Proof. reflexivity. Qed.

Lemma trimLeft_nl (m : string) : trimLeft (nl +:+ m) = m.
Proof.
  unfold trimLeft. by change (nl +:+ m) with (String newline m).
Qed.

Lemma trimRight_sliceTo (p : string) : ∃ n, trimRight p = sliceTo p n.
Proof.
  unfold trimRight. destruct (_ && _).
  - exists (String.length p - 1). unfold slice. simpl. by rewrite Nat.sub_0_r.
  - exists (String.length p). rewrite <- (sliceTo_app p EmptyString) at 1.
    clear. induction p as [|c p IH]; [done|]. rewrite append_cons. simpl.
    by rewrite <- IH.
Qed.

(** A separator without newline that starts inside [x +:+ nl] starts
    inside [x] and ends there too. *)
Lemma HasPrefix_nl (x z sep : string) :
  noNewline sep = true →
  HasPrefix (x +:+ nl +:+ z) sep = true → HasPrefix x sep = true.
Proof.
  revert x. induction sep as [|e sep IH]; intros x; simpl; [done|].
  intros [He Hs]%andb_true_iff. destruct x as [|d x].
  - rewrite append_empty_l. simpl. destruct (Ascii.eqb e newline); done.
  - rewrite append_cons. intros [-> H]%andb_true_iff. simpl. eauto.
Qed.

(** The first occurrence of [sep] in [a +:+ nl +:+ sep +:+ z], when [a]
    has none, is the one written there. *)
Lemma Index_nl (a z sep : string) :
  noNewline sep = true → sep ≠ EmptyString →
  Index a sep = None →
  Index (a +:+ nl +:+ sep +:+ z) sep = Some (S (String.length a)).
Proof.
  intros Hn Hsep. induction a as [|c a IH].
  - intros _. rewrite append_empty_l. change (nl +:+ sep +:+ z) with (String newline (sep +:+ z)).
    simpl. destruct sep as [|e sep]; [done|]. simpl in Hn.
    apply andb_true_iff in Hn as [He _].
    simpl. destruct (Ascii.eqb e newline); [done|]. simpl.
    by rewrite Ascii.eqb_refl, HasPrefix_app.
  - simpl. destruct (HasPrefix (String c a) sep) eqn:Hp; [done|].
    destruct (Index a sep) eqn:Ha; [done|]. intros _.
    destruct (HasPrefix (String c (a +:+ nl +:+ sep +:+ z)) sep) eqn:Hq.
    + rewrite <- append_cons in Hq. apply HasPrefix_nl in Hq; congruence.
    + by rewrite IH.
Qed.

Lemma delim_noNewline : noNewline delim = true.
Proof. reflexivity. Qed.

Lemma delim_nonempty : delim ≠ EmptyString.
Proof. done. Qed.

(** Parsing what [String] writes gives the description back, when the
    prefix holds no delimiter. *)
Lemma parse_String (a m : string) :
  Index a delim = None →
  parseDescription (description_String (mkDescription a m)) = mkDescription a m.
Proof.
  intros Ha. unfold description_String. simpl prefix. simpl suffix.
  case_bool_decide as Hempty.
  - subst a.
    rewrite (parseDescription_found _ 0)
      by apply Index_HasPrefix, HasPrefix_app.
    simpl sliceTo. rewrite trimRight_empty.
    replace (0 + String.length delim) with (String.length delim + 0) by lia.
    rewrite (sliceFrom_app delim (nl +:+ m) 0). simpl sliceFrom.
    by rewrite trimLeft_nl.
  - rewrite (parseDescription_found _ (S (String.length a)))
      by (apply Index_nl; auto using delim_noNewline, delim_nonempty).
    f_equal.
    + rewrite <- (append_assoc a nl).
      replace (S (String.length a)) with (String.length (a +:+ nl))
        by (rewrite length_append; simpl; lia).
      by rewrite sliceTo_app, trimRight_nl.
    + rewrite <- (append_assoc a nl), <- (append_assoc (a +:+ nl) delim).
      replace (S (String.length a) + String.length delim)
        with (String.length ((a +:+ nl) +:+ delim) + 0)
        by (rewrite !length_append; simpl; lia).
      rewrite sliceFrom_app. simpl sliceFrom. apply trimLeft_nl.
Qed.

(** The prefix that [parseDescription] returns never holds a delimiter. *)
Lemma parse_prefix_clean (s : string) :
  Index (prefix (parseDescription s)) delim = None.
Proof.
  destruct (Index s delim) as [m|] eqn:Hm.
  - rewrite (parseDescription_found _ _ Hm). simpl.
    destruct (trimRight_sliceTo (sliceTo s m)) as [n ->].
    apply Index_None_sliceTo; [apply delim_nonempty|].
    by apply Index_Some_sliceTo; [apply delim_nonempty|].
  - by rewrite (parseDescription_absent _ Hm).
Qed.

Lemma parse_String_parse (s : string) :
  parseDescription (description_String (parseDescription s)) = parseDescription s.
Proof.
  pose proof (parse_prefix_clean s) as H.
  destruct (parseDescription s) as [a m]. by apply parse_String.
Qed.

Lemma String_contains_delim (d : description) :
  Contains (description_String d) delim = true.
Proof.
  unfold description_String. case_bool_decide.
  - apply (Contains_app EmptyString).
  - rewrite <- (append_assoc (prefix d) nl). apply Contains_app.
Qed.

End Codec.

(** ** The lookup map built by the first loop *)

Section SrcMap.
Implicit Types (now : Time) (src : list Event) (m : gmap string Event).

Lemma NoDup_fmap_eq {A B} (f : A → B) (l : list A) (x y : A) :
  NoDup (f <$> l) → x ∈ l → y ∈ l → f x = f y → x = y.
Proof.
  induction l as [|z l IH]; [by intros _ ?%not_elem_of_nil|].
  rewrite fmap_cons, NoDup_cons.
  intros [Hz Hnd] [->|H1]%elem_of_cons [->|H2]%elem_of_cons Hk; auto.
  - exfalso. apply Hz. rewrite Hk. by apply list_elem_of_fmap_2.
  - exfalso. apply Hz. rewrite <- Hk. by apply list_elem_of_fmap_2.
Qed.

Lemma buildSrcMap_snoc now src ev :
  buildSrcMap now (src ++ [ev]) = srcMapStep now (buildSrcMap now src) ev.
Proof. unfold buildSrcMap. by rewrite foldl_snoc. Qed.

Lemma live_snoc now src ev :
  live now (src ++ [ev]) =
    live now src ++ (if Time_Before (End_ ev) now then [] else [ev]).
Proof.
  unfold live. rewrite filter_app. f_equal.
  destruct (Time_Before (End_ ev) now) eqn:He.
  - rewrite filter_cons_False; [done | congruence].
  - by rewrite filter_cons_True.
Qed.

Lemma elem_of_live now src d :
  d ∈ live now src ↔ d ∈ src ∧ Time_Before (End_ d) now = false.
Proof. unfold live. rewrite list_elem_of_filter. tauto. Qed.

(** The map holds, under each key, the last live desired event with that
    [SrcID]. *)
Lemma buildSrcMap_lookup now src k :
  buildSrcMap now src !! k = last (filter (λ d, SrcID d = k) (live now src)).
Proof.
  induction src as [|ev src IH] using rev_ind; [done|].
  rewrite buildSrcMap_snoc, live_snoc, filter_app. unfold srcMapStep.
  destruct (Time_Before (End_ ev) now).
  - by rewrite app_nil_r.
  - destruct (decide (SrcID ev = k)) as [<-|Hne].
    + rewrite lookup_insert_eq, filter_cons_True, filter_nil by done.
      by rewrite last_snoc.
    + rewrite lookup_insert_ne, filter_cons_False, filter_nil by done.
      by rewrite app_nil_r.
Qed.

Lemma buildSrcMap_lookup_Some now src k d :
  buildSrcMap now src !! k = Some d →
  d ∈ src ∧ SrcID d = k ∧ Time_Before (End_ d) now = false.
Proof.
  rewrite buildSrcMap_lookup. intros H%last_Some_elem_of.
  apply list_elem_of_filter in H as [Hk H]. apply elem_of_live in H. tauto.
Qed.

Lemma buildSrcMap_is_Some now src d :
  d ∈ src → Time_Before (End_ d) now = false →
  is_Some (buildSrcMap now src !! SrcID d).
Proof.
  intros Hd He. rewrite buildSrcMap_lookup.
  assert (d ∈ filter (λ d', SrcID d' = SrcID d) (live now src)) as Hin.
  { apply list_elem_of_filter. split; [done|]. by apply elem_of_live. }
  destruct (filter _ _) as [|x l] using rev_ind; [by apply not_elem_of_nil in Hin|].
  rewrite last_snoc. eauto.
Qed.

Lemma buildSrcMap_None now src k :
  (∀ d, d ∈ src → SrcID d = k → Time_Before (End_ d) now = true) →
  buildSrcMap now src !! k = None.
Proof.
  intros H. destruct (buildSrcMap now src !! k) as [d|] eqn:Hd; [|done].
  apply buildSrcMap_lookup_Some in Hd as (Hin & Hk & He).
  rewrite (H d Hin Hk) in He. done.
Qed.

Lemma buildSrcMap_keyed now src : keyed (buildSrcMap now src).
Proof. intros k d H. by apply buildSrcMap_lookup_Some in H as (_ & ? & _). Qed.

(** With distinct [SrcID]s among the live desired events, every one of
    them is in the map, and the map holds nothing else. *)
Lemma buildSrcMap_NoDup_lookup now src d :
  NoDup (SrcID <$> live now src) → d ∈ live now src →
  buildSrcMap now src !! SrcID d = Some d.
Proof.
  intros Hnd Hd. apply elem_of_live in Hd as [Hd He].
  destruct (buildSrcMap_is_Some now src d Hd He) as [d' Hd'].
  rewrite Hd'. f_equal.
  apply buildSrcMap_lookup_Some in Hd' as (Hin' & Hk' & He').
  assert (d' ∈ live now src) as H1 by by apply elem_of_live.
  assert (d ∈ live now src) as H2 by by apply elem_of_live.
  symmetry. by apply (NoDup_fmap_eq SrcID (live now src)).
Qed.

Lemma buildSrcMap_values now src :
  NoDup (SrcID <$> live now src) →
  (map_to_list (buildSrcMap now src)).*2 ≡ₚ live now src.
Proof.
  intros Hnd.
  assert (map_to_list (buildSrcMap now src) ≡ₚ (λ d, (SrcID d, d)) <$> live now src)
    as ->.
  { apply NoDup_Permutation.
    - apply NoDup_map_to_list.
    - apply NoDup_fmap_2_strong; [|by apply NoDup_fmap_1 in Hnd].
      intros x y _ _ [= _ ?]. done.
    - intros [k d]. rewrite elem_of_map_to_list, list_elem_of_fmap. split.
      + intros H. exists d. apply buildSrcMap_lookup_Some in H as (? & <- & ?).
        split; [done|]. by apply elem_of_live.
      + intros (d' & [= -> ->] & Hd'). by apply buildSrcMap_NoDup_lookup. }
  rewrite <- list_fmap_compose. by rewrite list_fmap_id.
Qed.

End SrcMap.

(** ** The second loop *)

Section CalLoop.
Implicit Types (m : gmap string Event) (l : list Event) (ch : Changes).

Lemma calStep_eq ch m r :
  calStep (ch, m) r =
    (mkChanges (Deletes ch ++ deletesOf m r) (Updates ch ++ updatesOf m r)
               (Adds ch),
     delete (SrcID r) m).
Proof.
  unfold calStep, deletesOf, updatesOf. destruct ch as [D U A]. simpl.
  destruct (m !! SrcID r) as [d|] eqn:Hd.
  - destruct (equal d r); simpl; by rewrite !app_nil_r.
  - by rewrite app_nil_r, delete_id.
Qed.

(** The loop only appends to what it is given. *)
Lemma foldl_calStep ch m l :
  foldl calStep (ch, m) l =
    (mkChanges (Deletes ch ++ Deletes (calLoop m l).1)
               (Updates ch ++ Updates (calLoop m l).1)
               (Adds ch ++ Adds (calLoop m l).1),
     (calLoop m l).2).
Proof.
  unfold calLoop. revert ch m. induction l as [|r l IH]; intros ch m.
  - simpl. rewrite !app_nil_r. by destruct ch.
  - cbn [foldl]. rewrite !calStep_eq, IH. symmetry. rewrite IH. simpl.
    by rewrite !app_assoc.
Qed.

Lemma calLoop_nil m : calLoop m [] = (mkChanges [] [] [], m).
Proof. reflexivity. Qed.

Lemma calLoop_cons m r l :
  calLoop m (r :: l) =
    (mkChanges (deletesOf m r ++ Deletes (calLoop (delete (SrcID r) m) l).1)
               (updatesOf m r ++ Updates (calLoop (delete (SrcID r) m) l).1)
               (Adds (calLoop (delete (SrcID r) m) l).1),
     (calLoop (delete (SrcID r) m) l).2).
Proof.
  unfold calLoop at 1. cbn [foldl]. by rewrite calStep_eq, foldl_calStep.
Qed.

Lemma calLoop_app m l1 l2 :
  calLoop m (l1 ++ l2) =
    (mkChanges
       (Deletes (calLoop m l1).1 ++ Deletes (calLoop (calLoop m l1).2 l2).1)
       (Updates (calLoop m l1).1 ++ Updates (calLoop (calLoop m l1).2 l2).1)
       (Adds (calLoop m l1).1 ++ Adds (calLoop (calLoop m l1).2 l2).1),
     (calLoop (calLoop m l1).2 l2).2).
Proof.
  unfold calLoop at 1. rewrite foldl_app. fold (calLoop m l1).
  destruct (calLoop m l1) as [ch1 m1]. by rewrite foldl_calStep.
Qed.

Lemma calLoop_Adds m l : Adds (calLoop m l).1 = [].
Proof.
  revert m. induction l as [|r l IH]; intros m; [done|].
  rewrite calLoop_cons. simpl. apply IH.
Qed.

(** The map that the loop leaves: the keys met are gone. *)
Lemma calLoop_lookup m l k :
  (calLoop m l).2 !! k = if decide (k ∈ SrcID <$> l) then None else m !! k.
Proof.
  revert m. induction l as [|r l IH]; intros m.
  - rewrite calLoop_nil. case_decide as Hin; [|done].
    by apply not_elem_of_nil in Hin.
  - rewrite calLoop_cons. cbn [snd]. rewrite IH, fmap_cons. clear IH.
    destruct (decide (k = SrcID r)) as [->|Hne].
    + rewrite lookup_delete_eq.
      destruct (decide (SrcID r ∈ SrcID r :: (SrcID <$> l))) as [_|Hn];
        [by destruct (decide _)|].
      exfalso. apply Hn. by left.
    + rewrite lookup_delete_ne by done.
      destruct (decide (k ∈ SrcID <$> l)) as [Hin|Hin];
        destruct (decide (k ∈ SrcID r :: (SrcID <$> l))) as [Hin'|Hin'];
        try done.
      * exfalso. apply Hin'. by right.
      * exfalso. by apply elem_of_cons in Hin' as [?|?].
Qed.

Lemma getOperations_Deletes now cal src :
  Deletes (getOperations now cal src) =
    Deletes (calLoop (buildSrcMap now src) cal).1.
Proof.
  unfold getOperations. fold (calLoop (buildSrcMap now src) cal).
  by destruct (calLoop _ _).
Qed.

Lemma getOperations_Updates now cal src :
  Updates (getOperations now cal src) =
    Updates (calLoop (buildSrcMap now src) cal).1.
Proof.
  unfold getOperations. fold (calLoop (buildSrcMap now src) cal).
  by destruct (calLoop _ _).
Qed.

Lemma getOperations_Adds now cal src :
  Adds (getOperations now cal src) =
    (map_to_list (calLoop (buildSrcMap now src) cal).2).*2.
Proof.
  unfold getOperations. fold (calLoop (buildSrcMap now src) cal).
  pose proof (calLoop_Adds (buildSrcMap now src) cal) as HA.
  destruct (calLoop _ _) as [ch m']. simpl in *. by rewrite HA.
Qed.

Lemma keyed_delete m k : keyed m → keyed (delete k m).
Proof. apply map_Forall_delete. Qed.

(** The deleted events are remote events, in their order. *)
Lemma Deletes_sublist m l : Deletes (calLoop m l).1 `sublist_of` l.
Proof.
  revert m. induction l as [|r l IH]; intros m; [done|].
  rewrite calLoop_cons. simpl. unfold deletesOf.
  destruct (m !! SrcID r); simpl.
  - by apply sublist_cons.
  - by apply sublist_skip.
Qed.

(** Once a key is absent, every remote event that carries it is deleted. *)
Lemma Deletes_absent m l k :
  m !! k = None →
  filter (λ r, SrcID r = k) (Deletes (calLoop m l).1) =
    filter (λ r, SrcID r = k) l.
Proof.
  revert m. induction l as [|r l IH]; intros m Hk; [done|].
  rewrite calLoop_cons. simpl. rewrite filter_app.
  rewrite IH by (rewrite lookup_delete; by case_decide).
  unfold deletesOf. destruct (decide (SrcID r = k)) as [He|Hne].
  - rewrite He, Hk. by rewrite !filter_cons_True, filter_nil by done.
  - rewrite (filter_cons_False _ r l) by done.
    destruct (m !! SrcID r); [done|].
    by rewrite filter_cons_False, filter_nil by done.
Qed.

(** Every update carries the [SrcID] of a remote event and a key of the
    map. *)
Lemma Updates_SrcID m l :
  keyed m →
  Forall (λ u, is_Some (m !! SrcID u) ∧ SrcID u ∈ SrcID <$> l)
         (Updates (calLoop m l).1).
Proof.
  revert m. induction l as [|r l IH]; intros m Hm; [by constructor|].
  rewrite calLoop_cons. simpl. apply Forall_app. split.
  - unfold updatesOf. destruct (m !! SrcID r) as [d|] eqn:Hd; [|by constructor].
    destruct (equal d r); constructor; [|by constructor].
    simpl. rewrite (Hm _ _ Hd), Hd. split; [eauto|]. by left.
  - eapply Forall_impl; [apply IH, keyed_delete, Hm|]. simpl.
    intros u [[d Hd] Hin]. apply lookup_delete_Some in Hd as [_ Hd].
    split; [eauto|]. by right.
Qed.

End CalLoop.

(** * The claims of the specification *)

(** ** The codec *)

(** C3 — round trip of the codec: for every annotation [a] that contains
    no occurrence of the delimiter and every managed text [m], parsing
    the serialization of the description with prefix [a] and suffix [m]
    gives exactly that description back. *)
Theorem roundtrip (a m : string) :
  strings.Contains a delim = false →
  parseDescription (description_String (mkDescription a m)) = mkDescription a m.
Proof.
  unfold strings.Contains. destruct (strings.Index a delim) eqn:Ha; [done|].
  intros _. by apply parse_String.
Qed.

Lemma roundtrip_witness :
  strings.Contains "testprefix" delim = false ∧
  parseDescription (description_String (mkDescription "testprefix" "testsuffix"))
    = mkDescription "testprefix" "testsuffix".
Proof.
  split; [reflexivity|]. apply (roundtrip "testprefix" "testsuffix"). reflexivity.
Defined.

(** C7 — fallback parsing: a string that contains no occurrence of the
    delimiter parses to the empty annotation and the whole string as the
    managed text. *)
Theorem fallback (s : string) :
  strings.Contains s delim = false →
  parseDescription s = mkDescription EmptyString s.
Proof.
  unfold strings.Contains. destruct (strings.Index s delim) eqn:Hs; [done|].
  intros _. by apply parseDescription_absent.
Qed.

Lemma fallback_witness :
  strings.Contains "foo" delim = false ∧
  parseDescription "foo" = mkDescription EmptyString "foo".
Proof. split; [reflexivity|]. apply (fallback "foo"). reflexivity. Defined.

(** C8 — idempotent export: exporting an event whose description is
    already an exported description gives that description again; on
    strings, serializing the parse twice is serializing it once. *)
Theorem export_idempotent (ev : Event) (s : string) :
  exportedDescription (withDescription ev (exportedDescription ev))
    = exportedDescription ev ∧
  description_String (parseDescription (description_String (parseDescription s)))
    = description_String (parseDescription s).
Proof.
  unfold exportedDescription. simpl. by rewrite !parse_String_parse.
Qed.

(** ** The write path *)

Section Writes.
Variable fmt : Time → string.
Variable serve : request → bool.

(** A loop over events sends only what its body sends. *)
Lemma forEach_sent (P : request → Prop) (f : Event → op) evs sent :
  (∀ ev sent', ∃ new, (f ev sent').2 = sent' ++ new ∧ Forall P new) →
  ∃ new, (forEach f evs sent).2 = sent ++ new ∧ Forall P new.
Proof.
  intros Hf. revert sent. induction evs as [|ev evs IH]; intros sent.
  - exists []. simpl. by rewrite app_nil_r.
  - simpl. destruct (Hf ev sent) as (new1 & H1 & HP1).
    destruct (f ev sent) as [ok sent1]. simpl in H1. subst sent1.
    destruct ok.
    + destruct (IH (sent ++ new1)) as (new2 & -> & HP2).
      exists (new1 ++ new2). rewrite app_assoc. split; [done|].
      by apply Forall_app.
    + by exists new1.
Qed.

Lemma add_sent c ev sent :
  ∃ new, (add fmt serve c ev sent).2 = sent ++ new ∧
    Forall (λ rq, writtenDescription rq = Some (exportedDescription ev)) new.
Proof.
  unfold add. destruct (nop c).
  - exists []. simpl. by rewrite app_nil_r.
  - eexists [_]. split; [reflexivity|]. by repeat constructor.
Qed.

Lemma update_sent c ev sent :
  ∃ new, (update fmt serve c ev sent).2 = sent ++ new ∧
    Forall (λ rq, writtenDescription rq = Some (exportedDescription ev)) new.
Proof.
  unfold update. destruct (nop c).
  - exists []. simpl. by rewrite app_nil_r.
  - eexists [_]. split; [reflexivity|]. by repeat constructor.
Qed.

Lemma remove_sent c ev sent :
  ∃ new, (remove serve c ev sent).2 = sent ++ new ∧
    Forall (λ rq, writtenDescription rq = None) new.
Proof.
  unfold remove. destruct (nop c).
  - exists []. simpl. by rewrite app_nil_r.
  - eexists [_]. split; [reflexivity|]. by repeat constructor.
Qed.

Lemma applyChanges_sent c changes sent :
  ∃ new, (applyChanges fmt serve c changes sent).2 = sent ++ new ∧
    Forall (λ rq, ∀ s, writtenDescription rq = Some s →
                       strings.Contains s delim = true) new.
Proof.
  set (P := λ rq, ∀ s, writtenDescription rq = Some s →
                       strings.Contains s delim = true).
  assert (∀ ev sent', ∃ new, (remove serve c ev sent').2 = sent' ++ new ∧ Forall P new)
    as Hrm.
  { intros ev sent'. destruct (remove_sent c ev sent') as (new & ? & HF).
    exists new. split; [done|]. eapply Forall_impl; [exact HF|].
    intros rq Hrq s. by rewrite Hrq. }
  assert (∀ ev sent', ∃ new, (update fmt serve c ev sent').2 = sent' ++ new ∧ Forall P new)
    as Hup.
  { intros ev sent'. destruct (update_sent c ev sent') as (new & ? & HF).
    exists new. split; [done|]. eapply Forall_impl; [exact HF|].
    intros rq Hrq s. rewrite Hrq. intros [= <-]. apply String_contains_delim. }
  assert (∀ ev sent', ∃ new, (add fmt serve c ev sent').2 = sent' ++ new ∧ Forall P new)
    as Had.
  { intros ev sent'. destruct (add_sent c ev sent') as (new & ? & HF).
    exists new. split; [done|]. eapply Forall_impl; [exact HF|].
    intros rq Hrq s. rewrite Hrq. intros [= <-]. apply String_contains_delim. }
  unfold applyChanges.
  destruct (forEach_sent P _ (Deletes changes) sent Hrm) as (n1 & H1 & HP1).
  destruct (forEach (remove serve c) (Deletes changes) sent) as [ok1 s1].
  simpl in H1. subst s1. destruct ok1; simpl; [|by exists n1].
  destruct (forEach_sent P _ (Updates changes) (sent ++ n1) Hup) as (n2 & H2 & HP2).
  destruct (forEach (update fmt serve c) (Updates changes) (sent ++ n1)) as [ok2 s2].
  simpl in H2. subst s2. destruct ok2; simpl.
  - destruct (forEach_sent P _ (Adds changes) ((sent ++ n1) ++ n2) Had)
      as (n3 & -> & HP3).
    exists (n1 ++ n2 ++ n3). rewrite !app_assoc. split; [done|].
    rewrite <- app_assoc. by rewrite !Forall_app.
  - exists (n1 ++ n2). rewrite app_assoc. split; [done|]. by apply Forall_app.
Qed.

(** C9 — the delimiter on every write: the exported description of every
    event contains the delimiter; what [add] and [update] send carries
    the exported description of the event as its description; so every
    description that [Import] writes to the remote store contains the
    delimiter. *)
Theorem delimiter_on_every_write
    (c : cal) (ev : Event) (sent : list request)
    (now : Time) (calEvents srcEvents : list Event) :
  strings.Contains (exportedDescription ev) delim = true ∧
  ce_Description (makeCalEvent fmt c ev) = exportedDescription ev ∧
  (∃ new, (add fmt serve c ev sent).2 = sent ++ new ∧
     Forall (λ rq, writtenDescription rq = Some (exportedDescription ev)) new) ∧
  (∃ new, (update fmt serve c ev sent).2 = sent ++ new ∧
     Forall (λ rq, writtenDescription rq = Some (exportedDescription ev)) new) ∧
  Forall (λ rq, ∀ s, writtenDescription rq = Some s →
                     strings.Contains s delim = true)
         (Import fmt serve c now calEvents srcEvents).2.
Proof.
  split; [apply String_contains_delim|]. split; [reflexivity|].
  split; [apply add_sent|]. split; [apply update_sent|].
  unfold Import.
  destruct (applyChanges_sent c (getOperations now calEvents srcEvents) [])
    as (new & Hnew & HP).
  destruct (applyChanges fmt serve c _ []) as [ok sent']. simpl in *. by subst sent'.
Qed.

End Writes.

(** ** The equality policy *)

Lemma equal_spec (ev other : Event) :
  equal ev other = true ↔
    Title ev = Title other ∧
    instant (Start ev) = instant (Start other) ∧
    instant (End_ ev) = instant (End_ other) ∧
    Where ev = Where other ∧
    SrcID ev = SrcID other ∧
    suffix (parseDescription (Description ev)) =
      suffix (parseDescription (Description other)).
Proof.
  unfold equal, Time_Equal.
  destruct (Z.eqb_spec (instant (Start ev)) (instant (Start other)));
    destruct (Z.eqb_spec (instant (End_ ev)) (instant (End_ other)));
    repeat (case_bool_decide; simpl); split; intros; try done; tauto.
Qed.

Lemma equal_sym (ev other : Event) : equal ev other = equal other ev.
Proof.
  destruct (equal ev other) eqn:H1, (equal other ev) eqn:H2; try done.
  - apply equal_spec in H1. apply not_true_iff_false in H2. destruct H2.
    apply equal_spec. intuition congruence.
  - apply equal_spec in H2. apply not_true_iff_false in H1. destruct H1.
    apply equal_spec. intuition congruence.
Qed.

Lemma sameContent_equal (r d : Event) : sameContent r d → equal d r = true.
Proof.
  intros (HT & HS & HE & HW & HI & HD). apply equal_spec.
  rewrite HT, HS, HE, HW, HI, HD. tauto.
Qed.

(** C2, as stated, fails: two events whose starts (and ends) are the same
    instant seen from different zones are equal for the reconciler,
    although their starts are not identical. *)
Lemma equality_policy_counterexample :
  equal sameXEast sameX = true ∧
  Start sameXEast ≠ Start sameX ∧ End_ sameXEast ≠ End_ sameX.
Proof. split; [reflexivity|]. split; discriminate. Qed.

(** C2, amended — the equality test of the reconciler returns true if
    and only if title, location and sourceID are identical, start and end
    denote the same instants (their zones are not compared), and the
    managed parts of the two descriptions are equal.  Hence a change of
    the description that keeps its managed part never changes the
    verdict, a difference in the managed part always makes the events
    unequal, and the remote id plays no role. *)
Theorem equality_policy (r d : Event) :
  (equal d r = true ↔
     Title d = Title r ∧
     instant (Start d) = instant (Start r) ∧
     instant (End_ d) = instant (End_ r) ∧
     Where d = Where r ∧
     SrcID d = SrcID r ∧
     suffix (parseDescription (Description d)) =
       suffix (parseDescription (Description r))) ∧
  (∀ s : string,
     suffix (parseDescription s) = suffix (parseDescription (Description r)) →
     equal d (withDescription r s) = equal d r) ∧
  (suffix (parseDescription (Description d)) ≠
     suffix (parseDescription (Description r)) →
   equal d r = false) ∧
  (∀ id id' : string,
     equal (withCalEventID d id) (withCalEventID r id') = equal d r).
Proof.
  split; [apply equal_spec|]. split; [|split].
  - intros s Hs.
    destruct (equal d r) eqn:H.
    + apply equal_spec. apply equal_spec in H. simpl. rewrite Hs. tauto.
    + apply not_true_iff_false. apply not_true_iff_false in H.
      intros H'. apply H. apply equal_spec. apply equal_spec in H'.
      simpl in H'. rewrite Hs in H'. tauto.
  - intros Hne. apply not_true_iff_false. intros H%equal_spec. tauto.
  - intros id id'. reflexivity.
Qed.

Lemma equality_policy_witness :
  suffix (parseDescription (Description desiredX)) ≠
    suffix (parseDescription (Description remoteX)) ∧
  equal desiredX remoteX = false.
Proof.
  assert (suffix (parseDescription (Description desiredX)) ≠
            suffix (parseDescription (Description remoteX))) as Hne
    by (vm_compute; discriminate).
  split; [exact Hne|].
  exact (proj1 (proj2 (proj2 (equality_policy remoteX desiredX))) Hne).
Defined.

(** ** The reconciler *)

Lemma Time_Before_false (t u : Time) :
  Time_Before t u = false ↔ (instant u ≤ instant t)%Z.
Proof. unfold Time_Before. apply Z.ltb_ge. Qed.

Lemma Time_Before_true (t u : Time) :
  Time_Before t u = true ↔ (instant t < instant u)%Z.
Proof. unfold Time_Before. apply Z.ltb_lt. Qed.

(** The adds are values of the lookup map. *)
Lemma elem_of_Adds now cal src d :
  d ∈ Adds (getOperations now cal src) ↔
    buildSrcMap now src !! SrcID d = Some d ∧ SrcID d ∉ SrcID <$> cal.
Proof.
  rewrite getOperations_Adds, list_elem_of_fmap. split.
  - intros ([k d'] & -> & H). simpl. apply elem_of_map_to_list in H.
    rewrite calLoop_lookup in H. case_decide as Hin; [done|].
    pose proof (buildSrcMap_keyed _ _ _ _ H) as Hk. simpl in Hk. subst k.
    done.
  - intros [H Hin]. exists (SrcID d, d). split; [done|].
    apply elem_of_map_to_list. rewrite calLoop_lookup. by rewrite decide_False.
Qed.

Lemma elem_of_Deletes_absent now cal src r :
  r ∈ cal → buildSrcMap now src !! SrcID r = None →
  r ∈ Deletes (getOperations now cal src).
Proof.
  intros Hr Hk. rewrite getOperations_Deletes.
  pose proof (Deletes_absent _ cal _ Hk) as Hf.
  assert (r ∈ filter (λ r', SrcID r' = SrcID r) cal) as Hin
    by by apply list_elem_of_filter.
  rewrite <- Hf in Hin. by apply list_elem_of_filter in Hin as [_ ?].
Qed.

(** C5, as stated, fails at the boundary: a desired event that ends
    exactly at [now] does not end strictly after [now], yet it is entered
    into the map and emitted as an add. *)
Lemma expiry_filtering_counterexample :
  ¬ (instant (utc 200) < instant (End_ sameX))%Z ∧
  buildSrcMap (utc 200) [sameX] !! SrcID sameX = Some sameX ∧
  Adds (getOperations (utc 200) [] [sameX]) = [sameX].
Proof. split; [simpl; lia|]. split; reflexivity. Qed.

(** C5, amended — expiry filtering: the first loop enters a desired event
    into the lookup map if and only if its end is not before [now] (an
    event that ends exactly at [now] is entered); so the map holds only
    such events, and each of them has its sourceID in the map.  A desired
    event whose end is before [now] is never emitted as an add, and a
    remote event whose sourceID is carried by such desired events only
    is emitted as a delete. *)
Theorem expiry_filtering (now : Time) (cal src : list Event) :
  (∀ m ev, (instant now ≤ instant (End_ ev))%Z →
           srcMapStep now m ev = <[SrcID ev := ev]> m) ∧
  (∀ m ev, (instant (End_ ev) < instant now)%Z → srcMapStep now m ev = m) ∧
  (∀ k d, buildSrcMap now src !! k = Some d →
          d ∈ src ∧ SrcID d = k ∧ (instant now ≤ instant (End_ d))%Z) ∧
  (∀ d, d ∈ src → (instant now ≤ instant (End_ d))%Z →
        is_Some (buildSrcMap now src !! SrcID d)) ∧
  (∀ d, (instant (End_ d) < instant now)%Z →
        d ∉ Adds (getOperations now cal src)) ∧
  (∀ r, r ∈ cal →
        (∀ d, d ∈ src → SrcID d = SrcID r →
              (instant (End_ d) < instant now)%Z) →
        r ∈ Deletes (getOperations now cal src)).
Proof.
  repeat split.
  - intros m ev H%Time_Before_false. unfold srcMapStep. by rewrite H.
  - intros m ev H%Time_Before_true. unfold srcMapStep. by rewrite H.
  - by apply buildSrcMap_lookup_Some in H as (? & ? & ?).
  - by apply buildSrcMap_lookup_Some in H as (? & ? & ?).
  - apply buildSrcMap_lookup_Some in H as (? & ? & ?).
    by apply Time_Before_false.
  - intros d Hd He. apply buildSrcMap_is_Some; [done|].
    by apply Time_Before_false.
  - intros d He [Hd _]%elem_of_Adds.
    apply buildSrcMap_lookup_Some in Hd as (_ & _ & Hd).
    apply Time_Before_false in Hd. lia.
  - intros r Hr Hall. apply elem_of_Deletes_absent; [done|].
    apply buildSrcMap_None. intros d Hd Hk. apply Time_Before_true. auto.
Qed.

Lemma expiry_filtering_witness :
  remoteX ∈ [remoteX] ∧
  (∀ d, d ∈ [sameX] → SrcID d = SrcID remoteX →
        (instant (End_ d) < instant (utc 500))%Z) ∧
  remoteX ∈ Deletes (getOperations (utc 500) [remoteX] [sameX]) ∧
  sameX ∉ Adds (getOperations (utc 500) [remoteX] [sameX]).
Proof.
  assert (remoteX ∈ [remoteX]) as Hin by apply list_elem_of_here.
  assert (∀ d, d ∈ [sameX] → SrcID d = SrcID remoteX →
               (instant (End_ d) < instant (utc 500))%Z) as Hexp.
  { intros d Hd%list_elem_of_singleton _. subst d. simpl. lia. }
  pose proof (expiry_filtering (utc 500) [remoteX] [sameX])
    as (_ & _ & _ & _ & Hadd & Hdel).
  split; [exact Hin|]. split; [exact Hexp|].
  split; [exact (Hdel remoteX Hin Hexp)|].
  apply Hadd. simpl. lia.
Defined.

Lemma calLoop_keyed m l : keyed m → keyed (calLoop m l).2.
Proof.
  intros Hm k d. rewrite calLoop_lookup. case_decide; [done|]. apply Hm.
Qed.

Lemma filter_none {A} (P : A → Prop) `{!∀ x, Decision (P x)} (l : list A) :
  Forall (λ x, ¬ P x) l → filter P l = [].
Proof.
  induction 1 as [|x l Hx _ IH]; [done|]. by rewrite filter_cons_False.
Qed.

(** What the loop does with the remote event that follows [pre]: it
    looks its [SrcID] up in the map without the keys of [pre]. *)
Lemma calLoop_at m pre r post :
  let m1 := (calLoop m pre).2 in
  Deletes (calLoop m (pre ++ r :: post)).1 =
    Deletes (calLoop m pre).1 ++ deletesOf m1 r ++
    Deletes (calLoop (delete (SrcID r) m1) post).1 ∧
  Updates (calLoop m (pre ++ r :: post)).1 =
    Updates (calLoop m pre).1 ++ updatesOf m1 r ++
    Updates (calLoop (delete (SrcID r) m1) post).1.
Proof. intros m1. rewrite calLoop_app, calLoop_cons. by simpl. Qed.

(** The first remote event with a [SrcID] that the map holds is matched:
    it is not deleted, it is updated when it differs, and the remote
    events after it are handled without that key. *)
Lemma calLoop_first m pre r post d :
  keyed m → m !! SrcID r = Some d → SrcID r ∉ SrcID <$> pre →
  ∃ D U,
    Deletes (calLoop m (pre ++ r :: post)).1 = Deletes (calLoop m pre).1 ++ D ∧
    Updates (calLoop m (pre ++ r :: post)).1 =
      Updates (calLoop m pre).1 ++
      (if equal d r then [] else [newUpdate r d]) ++ U ∧
    D `sublist_of` post ∧
    filter (λ r', SrcID r' = SrcID r) D = filter (λ r', SrcID r' = SrcID r) post ∧
    Forall (λ u, SrcID u ≠ SrcID r) U.
Proof.
  intros Hm Hd Hpre.
  destruct (calLoop_at m pre r post) as [HD HU].
  set (m1 := (calLoop m pre).2) in *.
  assert (m1 !! SrcID r = Some d) as Hd1.
  { unfold m1. rewrite calLoop_lookup. by rewrite decide_False. }
  exists (Deletes (calLoop (delete (SrcID r) m1) post).1),
         (Updates (calLoop (delete (SrcID r) m1) post).1).
  unfold deletesOf in HD. unfold updatesOf in HU. rewrite Hd1 in HD, HU.
  split; [done|]. split; [done|]. split; [apply Deletes_sublist|].
  split; [apply Deletes_absent, lookup_delete_eq|].
  eapply Forall_impl.
  - apply Updates_SrcID, keyed_delete, calLoop_keyed, Hm.
  - simpl. intros u [[x Hx] _] Hu. rewrite Hu, lookup_delete_eq in Hx. done.
Qed.

(** C10 — duplicate sourceID among the remote events: when a desired
    event that has not expired carries the sourceID of the remote event
    [r], and no remote event before [r] carries it, then [r] is matched
    against the desired event [d] that the lookup map holds: [r] is not
    deleted, and it yields one update when [d] differs from it and
    nothing otherwise.  Every remote event after [r] with the same
    sourceID is emitted as a delete, and none of them yields an update. *)
Theorem duplicate_remote_ids
    (now : Time) (src pre post : list Event) (r d0 : Event) :
  d0 ∈ src → Time_Before (End_ d0) now = false → SrcID d0 = SrcID r →
  SrcID r ∉ SrcID <$> pre →
  ∃ d D U,
    buildSrcMap now src !! SrcID r = Some d ∧
    Deletes (getOperations now (pre ++ r :: post) src) =
      Deletes (getOperations now pre src) ++ D ∧
    Updates (getOperations now (pre ++ r :: post) src) =
      Updates (getOperations now pre src) ++
      (if equal d r then [] else [newUpdate r d]) ++ U ∧
    D `sublist_of` post ∧
    filter (λ r', SrcID r' = SrcID r) D = filter (λ r', SrcID r' = SrcID r) post ∧
    Forall (λ u, SrcID u ≠ SrcID r) U.
Proof.
  intros Hd0 He Hk Hpre.
  destruct (buildSrcMap_is_Some now src d0 Hd0 He) as [d Hd].
  rewrite Hk in Hd. exists d.
  destruct (calLoop_first _ pre r post d (buildSrcMap_keyed now src) Hd Hpre)
    as (D & U & H).
  exists D, U. rewrite !getOperations_Deletes, !getOperations_Updates. tauto.
Qed.

Lemma duplicate_remote_ids_witness :
  sameX ∈ [sameX] ∧
  Time_Before (End_ sameX) (utc 0) = false ∧
  SrcID sameX = SrcID remoteX ∧
  (SrcID remoteX ∉ SrcID <$> []) ∧
  ∃ d D U,
    buildSrcMap (utc 0) [sameX] !! SrcID remoteX = Some d ∧
    Deletes (getOperations (utc 0) ([] ++ remoteX :: [remoteX2]) [sameX]) =
      Deletes (getOperations (utc 0) [] [sameX]) ++ D ∧
    Updates (getOperations (utc 0) ([] ++ remoteX :: [remoteX2]) [sameX]) =
      Updates (getOperations (utc 0) [] [sameX]) ++
      (if equal d remoteX then [] else [newUpdate remoteX d]) ++ U ∧
    D `sublist_of` [remoteX2] ∧
    filter (λ r', SrcID r' = SrcID remoteX) D =
      filter (λ r', SrcID r' = SrcID remoteX) [remoteX2] ∧
    Forall (λ u, SrcID u ≠ SrcID remoteX) U.
Proof.
  assert (sameX ∈ [sameX]) as Hin by apply list_elem_of_here.
  assert (SrcID remoteX ∉ SrcID <$> []) as Hpre by apply not_elem_of_nil.
  split; [exact Hin|]. split; [reflexivity|]. split; [reflexivity|].
  split; [exact Hpre|].
  exact (duplicate_remote_ids (utc 0) [sameX] [] [remoteX2] remoteX sameX
           Hin eq_refl eq_refl Hpre).
Defined.

(** C1, as stated, fails when a sourceID is repeated: [desiredX] shares
    the sourceID of [remoteX], has not expired and differs from it, but
    the later desired event [sameX] replaces it in the lookup map, and no
    update is produced. *)
Lemma annotation_preservation_counterexample :
  SrcID remoteX = SrcID desiredX ∧
  Time_Before (End_ desiredX) (utc 0) = false ∧
  equal desiredX remoteX = false ∧
  Updates (getOperations (utc 0) [remoteX] [desiredX; sameX]) = [].
Proof. repeat split. Qed.

(** C1, amended — annotation preservation: when [r] is the first remote
    event with its sourceID, [d] is the desired event that the lookup map
    holds under that sourceID (the last desired event with it that has
    not expired), and the two compare unequal, then exactly one update
    with that sourceID is produced.  Its description serializes the
    annotation parsed from the description of [r] as the prefix and the
    raw description of [d] as the suffix; its other fields are those of
    [d], and its remote id is that of [r].  For the remote description
    "human note", delimiter, "old body" and the desired description
    "new body", the description of the update is "human note",
    delimiter, "new body". *)
Theorem annotation_preservation
    (now : Time) (src pre post : list Event) (r d : Event) :
  buildSrcMap now src !! SrcID r = Some d →
  SrcID r ∉ SrcID <$> pre →
  equal d r = false →
  filter (λ u, SrcID u = SrcID r)
         (Updates (getOperations now (pre ++ r :: post) src))
    = [newUpdate r d] ∧
  Description (newUpdate r d) =
    description_String
      (mkDescription (prefix (parseDescription (Description r)))
                     (Description d)) ∧
  Title (newUpdate r d) = Title d ∧
  Start (newUpdate r d) = Start d ∧
  End_ (newUpdate r d) = End_ d ∧
  Where (newUpdate r d) = Where d ∧
  SrcID (newUpdate r d) = SrcID d ∧
  calEventID (newUpdate r d) = calEventID r ∧
  (Description r = "human note" +:+ nl +:+ delim +:+ nl +:+ "old body" →
   Description d = "new body" →
   Description (newUpdate r d) =
     "human note" +:+ nl +:+ delim +:+ nl +:+ "new body").
Proof.
  intros Hd Hpre Hne. split; [|split; [done|]].
  - pose proof (buildSrcMap_keyed now src) as Hm.
    destruct (calLoop_first _ pre r post d Hm Hd Hpre)
      as (D & U & _ & HU & _ & _ & HUk).
    rewrite getOperations_Updates, HU, Hne, !filter_app.
    rewrite (filter_none _ U) by done.
    rewrite (filter_none _ (Updates _)).
    + rewrite filter_cons_True, filter_nil; [done|]. simpl. by apply Hm in Hd.
    + eapply Forall_impl; [apply Updates_SrcID, Hm|]. simpl.
      intros u [_ Hin] Hu. by rewrite Hu in Hin.
  - repeat split. intros Hr Hd'. unfold newUpdate. simpl. by rewrite Hr, Hd'.
Qed.

Lemma annotation_preservation_witness :
  buildSrcMap (utc 0) [desiredX] !! SrcID remoteX = Some desiredX ∧
  (SrcID remoteX ∉ SrcID <$> []) ∧
  equal desiredX remoteX = false ∧
  Updates (getOperations (utc 0) [remoteX] [desiredX]) =
    [newUpdate remoteX desiredX] ∧
  filter (λ u, SrcID u = SrcID remoteX)
         (Updates (getOperations (utc 0) ([] ++ remoteX :: []) [desiredX]))
    = [newUpdate remoteX desiredX] ∧
  Description (newUpdate remoteX desiredX) =
    "human note" +:+ nl +:+ delim +:+ nl +:+ "new body".
Proof.
  assert (SrcID remoteX ∉ SrcID <$> []) as Hpre by apply not_elem_of_nil.
  pose proof (annotation_preservation (utc 0) [desiredX] [] [] remoteX desiredX
                eq_refl Hpre eq_refl) as (Hone & _ & _ & _ & _ & _ & _ & _ & Hex).
  split; [reflexivity|]. split; [exact Hpre|]. split; [reflexivity|].
  split; [reflexivity|]. split; [exact Hone|]. exact (Hex eq_refl eq_refl).
Defined.

(** The loop partitions the remote events and the values of the map. *)
Lemma calLoop_partition (m : gmap string Event) (l : list Event) :
  keyed m →
  ∃ unchanged updated : list (Event * Event),
    l ≡ₚ unchanged.*1 ++ updated.*1 ++ Deletes (calLoop m l).1 ∧
    (map_to_list m).*2 ≡ₚ
      unchanged.*2 ++ updated.*2 ++ (map_to_list (calLoop m l).2).*2 ∧
    Updates (calLoop m l).1 = (λ p, newUpdate p.1 p.2) <$> updated ∧
    Forall (λ p, SrcID p.1 = SrcID p.2 ∧ equal p.2 p.1 = true) unchanged ∧
    Forall (λ p, SrcID p.1 = SrcID p.2 ∧ equal p.2 p.1 = false) updated.
Proof.
  revert m. induction l as [|r l IH]; intros m Hm.
  - exists [], []. rewrite calLoop_nil. simpl. by repeat split.
  - destruct (IH (delete (SrcID r) m) (keyed_delete _ _ Hm))
      as (U & P & Hl & Hv & HU & HFU & HFP).
    rewrite calLoop_cons. cbn [fst snd Deletes Updates].
    unfold deletesOf, updatesOf.
    destruct (m !! SrcID r) as [d|] eqn:Hd.
    + assert ((map_to_list m).*2 ≡ₚ d :: (map_to_list (delete (SrcID r) m)).*2)
        as Hm'.
      { rewrite <- (map_to_list_delete m (SrcID r) d Hd). by rewrite fmap_cons. }
      pose proof (Hm _ _ Hd) as Hk. simpl in Hk.
      destruct (equal d r) eqn:He.
      * exists ((r, d) :: U), P. simpl. rewrite Hm', <- Hl, <- Hv.
        repeat split; try done. by constructor.
      * exists U, ((r, d) :: P). simpl. rewrite Hm', Hv, HU.
        repeat split; try done.
        -- rewrite <- Permutation_middle. by rewrite <- Hl.
        -- by rewrite <- Permutation_middle.
        -- by constructor.
    + rewrite delete_id in * by done. exists U, P. simpl.
      repeat split; try done.
      rewrite <- !Permutation_middle. by rewrite <- Hl.
Qed.

(** C4, as stated, fails for the desired events: of two desired events
    with one sourceID that have not expired, the earlier is replaced in
    the lookup map; it is neither added nor matched, so the desired
    events are not partitioned. *)
Lemma partition_totality_counterexample :
  live (utc 0) [desiredX; sameX] = [desiredX; sameX] ∧
  getOperations (utc 0) [] [desiredX; sameX] = mkChanges [] [] [sameX] ∧
  ¬ partitioned [] (live (utc 0) [desiredX; sameX])
                (getOperations (utc 0) [] [desiredX; sameX]).
Proof.
  split; [reflexivity|]. split; [reflexivity|].
  intros (U & P & H1 & H2 & _).
  change (Deletes _) with (@nil Event) in H1.
  change (Adds _) with [sameX] in H2.
  change (live _ _) with [desiredX; sameX] in H2.
  rewrite app_nil_r in H1. symmetry in H1. apply Permutation_nil_r in H1.
  apply app_eq_nil in H1 as [HU%fmap_nil_inv HP%fmap_nil_inv]. subst U P.
  apply Permutation_length in H2. discriminate.
Qed.

(** C4, amended — partition totality: for every input, each remote event
    falls in exactly one of the groups unchanged, updated and deleted,
    and each desired event held in the lookup map (one that has not
    expired and is not replaced by a later one with its sourceID) falls
    in exactly one of the groups unchanged, updated and added.  When the
    desired events that have not expired carry pairwise distinct
    sourceIDs, these are all the desired events that have not expired. *)
Theorem partition_totality (now : Time) (cal src : list Event) :
  partitioned cal (map_to_list (buildSrcMap now src)).*2
              (getOperations now cal src) ∧
  (NoDup (SrcID <$> live now src) →
   partitioned cal (live now src) (getOperations now cal src)).
Proof.
  destruct (calLoop_partition (buildSrcMap now src) cal (buildSrcMap_keyed _ _))
    as (U & P & Hl & Hv & HU & HFU & HFP).
  split; [|intros Hnd]; exists U, P;
    rewrite getOperations_Deletes, getOperations_Updates, getOperations_Adds.
  - done.
  - by rewrite <- (buildSrcMap_values now src Hnd).
Qed.

Lemma partition_totality_witness :
  NoDup (SrcID <$> live (utc 0) [desiredX; desiredY]) ∧
  partitioned [remoteX; remoteX2] (live (utc 0) [desiredX; desiredY])
              (getOperations (utc 0) [remoteX; remoteX2] [desiredX; desiredY]).
Proof.
  assert (NoDup (SrcID <$> live (utc 0) [desiredX; desiredY])) as Hnd.
  { change (NoDup ["x"; "y"]). repeat constructor.
    - intros [?|H]%elem_of_cons; [done|]. by apply not_elem_of_nil in H.
    - apply not_elem_of_nil. }
  split; [exact Hnd|].
  exact (proj2 (partition_totality (utc 0) [remoteX; remoteX2]
                  [desiredX; desiredY]) Hnd).
Defined.

(** C6, as stated, fails when the events have expired: the remote set and
    the desired set match, but the desired event ended before [now], is
    skipped by the first loop, and its remote twin is deleted. *)
Lemma noop_stability_counterexample :
  Forall (λ r, Exists (λ d, sameContent r d) [sameX]) [remoteX] ∧
  Forall (λ d, Exists (λ r, sameContent r d) [remoteX]) [sameX] ∧
  getOperations (utc 500) [remoteX] [sameX] = mkChanges [remoteX] [] [].
Proof.
  assert (sameContent remoteX sameX) as H by (by repeat split).
  split; [by repeat constructor|]. split; [by repeat constructor|].
  reflexivity.
Qed.

(** C6, amended — no-op stability: when every remote event has a desired
    event with the same title, start, end, location, sourceID and managed
    description, and every desired event has such a remote event, when
    moreover no desired event has ended before [now] and the remote
    events carry pairwise distinct sourceIDs, the reconciliation yields
    no deletes, no updates and no adds. *)
Theorem noop_stability (now : Time) (cal src : list Event) :
  Forall (λ r, Exists (λ d, sameContent r d) src) cal →
  Forall (λ d, Exists (λ r, sameContent r d) cal) src →
  Forall (λ d, Time_Before (End_ d) now = false) src →
  NoDup (SrcID <$> cal) →
  getOperations now cal src = mkChanges [] [] [].
Proof.
  intros Hcal Hsrc Hlive Hnd.
  rewrite Forall_forall in Hcal, Hsrc, Hlive.
  set (m := buildSrcMap now src).
  (* what the map holds under the key of a remote event equals it *)
  assert (∀ r, r ∈ cal → ∃ d, m !! SrcID r = Some d ∧ equal d r = true) as Hm.
  { intros r Hr. pose proof (Hcal r Hr) as Hex.
    apply Exists_exists in Hex as (d0 & Hd0 & Hs0).
    destruct (buildSrcMap_is_Some now src d0 Hd0 (Hlive _ Hd0)) as [d Hd].
    destruct Hs0 as (_ & _ & _ & _ & Hk0 & _). rewrite <- Hk0 in Hd.
    exists d. split; [done|].
    apply buildSrcMap_lookup_Some in Hd as (Hin & Hk & _).
    pose proof (Hsrc d Hin) as Hex. apply Exists_exists in Hex as (r' & Hr' & Hs).
    assert (r' = r) as ->.
    { apply (NoDup_fmap_eq SrcID cal); try done.
      destruct Hs as (_ & _ & _ & _ & Hk' & _). congruence. }
    by apply sameContent_equal. }
  assert (∀ pre l, cal = pre ++ l →
            Deletes (calLoop (calLoop m pre).2 l).1 = [] ∧
            Updates (calLoop (calLoop m pre).2 l).1 = []) as Hloop.
  { intros pre l. revert pre. induction l as [|r l IH]; intros pre Hpre; [done|].
    rewrite calLoop_cons. cbn [fst Deletes Updates].
    assert (r ∈ cal) as Hr.
    { rewrite Hpre. apply elem_of_app. right. by left. }
    destruct (Hm r Hr) as (d & Hd & He).
    assert ((calLoop m pre).2 !! SrcID r = Some d) as Hd1.
    { rewrite calLoop_lookup, decide_False; [done|].
      rewrite Hpre, fmap_app, fmap_cons in Hnd.
      apply NoDup_app in Hnd as (_ & Hnd & _). intros Hin.
      apply (Hnd _ Hin). by left. }
    unfold deletesOf, updatesOf. rewrite Hd1, He. simpl.
    specialize (IH (pre ++ [r])). rewrite <- app_assoc in IH.
    specialize (IH Hpre). rewrite calLoop_app, calLoop_cons in IH.
    by cbn [snd] in IH. }
  destruct (Hloop [] cal eq_refl) as [HD HU]. rewrite calLoop_nil in HD, HU.
  simpl in HD, HU.
  assert (Adds (getOperations now cal src) = []) as HA.
  { rewrite getOperations_Adds. fold m.
    assert ((calLoop m cal).2 = ∅) as ->; [|by rewrite map_to_list_empty].
    apply map_empty. intros k. rewrite calLoop_lookup.
    case_decide as Hk; [done|].
    destruct (m !! k) as [d|] eqn:Hd; [|done]. exfalso. apply Hk.
    apply buildSrcMap_lookup_Some in Hd as (Hin & <- & _).
    pose proof (Hsrc d Hin) as Hex. apply Exists_exists in Hex as (r & Hr & Hs).
    destruct Hs as (_ & _ & _ & _ & <- & _). by apply list_elem_of_fmap_2. }
  pose proof (getOperations_Deletes now cal src) as HD'.
  pose proof (getOperations_Updates now cal src) as HU'.
  fold m in HD', HU'. rewrite HD in HD'. rewrite HU in HU'.
  destruct (getOperations now cal src). simpl in *. by subst.
Qed.

Lemma noop_stability_witness :
  Forall (λ r, Exists (λ d, sameContent r d) [sameX]) [remoteX] ∧
  Forall (λ d, Exists (λ r, sameContent r d) [remoteX]) [sameX] ∧
  Forall (λ d, Time_Before (End_ d) (utc 0) = false) [sameX] ∧
  NoDup (SrcID <$> [remoteX]) ∧
  getOperations (utc 0) [remoteX] [sameX] = mkChanges [] [] [].
Proof.
  assert (sameContent remoteX sameX) as H by (by repeat split).
  assert (Forall (λ r, Exists (λ d, sameContent r d) [sameX]) [remoteX])
    as H1 by (by repeat constructor).
  assert (Forall (λ d, Exists (λ r, sameContent r d) [remoteX]) [sameX])
    as H2 by (by repeat constructor).
  assert (Forall (λ d, Time_Before (End_ d) (utc 0) = false) [sameX])
    as H3 by (by repeat constructor).
  assert (NoDup (SrcID <$> [remoteX])) as H4.
  { apply NoDup_singleton. }
  split; [exact H1|]. split; [exact H2|]. split; [exact H3|].
  split; [exact H4|].
  exact (noop_stability (utc 0) [remoteX] [sameX] H1 H2 H3 H4).
Defined.

(** * Further properties of the code *)

(** ** The codec *)

Lemma append_empty_r (s : string) : s +:+ EmptyString = s.
Proof. induction s as [|c s IH]; [done|]. by rewrite append_cons, IH. Qed.

Lemma Contains_false (s sep : string) :
  strings.Contains s sep = false ↔ strings.Index s sep = None.
Proof. unfold strings.Contains. by destruct (strings.Index s sep). Qed.

(** A string whose last byte is [c] is the string without it, then [c]. *)
Lemma get_last_split (p : string) (c : ascii) :
  String.get (String.length p - 1) p = Some c →
  p = strings.sliceTo p (String.length p - 1) +:+ String c EmptyString.
Proof.
  induction p as [|a p IH]; [done|].
  simpl String.length. rewrite Nat.sub_succ, Nat.sub_0_r.
  destruct p as [|b p].
  - simpl. by intros [= ->].
  - simpl String.length in *. rewrite Nat.sub_succ, Nat.sub_0_r in IH.
    intros H. change (String.get (String.length p) (String b p) = Some c) in H.
    change (strings.sliceTo (String a (String b p)) (S (String.length p)))
      with (String a (strings.sliceTo (String b p) (String.length p))).
    rewrite append_cons. f_equal. by apply IH.
Qed.

Lemma trimRight_split (p : string) :
  ∃ x, p = trimRight p +:+ x ∧ (x = EmptyString ∨ x = nl).
Proof.
  unfold trimRight. destruct (negb _) eqn:Hl; simpl.
  - case_bool_decide as Hg.
    + exists nl. split; [|by right]. unfold strings.slice. simpl strings.sliceFrom.
      rewrite Nat.sub_0_r. by apply get_last_split.
    + exists EmptyString. by rewrite append_empty_r; auto.
  - exists EmptyString. by rewrite append_empty_r; auto.
Qed.

Lemma trimLeft_split (q : string) :
  ∃ y, q = y +:+ trimLeft q ∧ (y = EmptyString ∨ y = nl).
Proof.
  unfold trimLeft. destruct q as [|c q]; simpl.
  - exists EmptyString. auto.
  - case_bool_decide as Hg.
    + injection Hg as ->. exists nl. auto.
    + exists EmptyString. auto.
Qed.

(** X1 — the round trip of the codec holds exactly for the prefixes
    without delimiter: parsing the serialization of prefix [a] and suffix
    [m] gives them back if and only if [a] contains no delimiter. *)
Theorem roundtrip_exactly (a m : string) :
  parseDescription (description_String (mkDescription a m)) = mkDescription a m
  ↔ strings.Contains a delim = false.
Proof.
  rewrite Contains_false. split; [|apply parse_String].
  intros H. pose proof (parse_prefix_clean (description_String (mkDescription a m))) as Hc.
  by rewrite H in Hc.
Qed.

(** X2 — the prefix that [parseDescription] returns never contains the
    delimiter, whatever the input. *)
Theorem parsed_prefix_has_no_delimiter (s : string) :
  strings.Contains (prefix (parseDescription s)) delim = false.
Proof. apply Contains_false, parse_prefix_clean. Qed.

(** X3 — parsing loses at most one newline on each side of the first
    delimiter: a description that contains the delimiter is its parsed
    prefix, an optional newline, the delimiter, an optional newline and
    its parsed suffix. *)
Theorem parse_keeps_content (s : string) :
  strings.Contains s delim = true →
  ∃ x y,
    s = prefix (parseDescription s) +:+ x +:+ delim +:+ y +:+
        suffix (parseDescription s) ∧
    (x = EmptyString ∨ x = nl) ∧ (y = EmptyString ∨ y = nl).
Proof.
  unfold strings.Contains. destruct (strings.Index s delim) as [k|] eqn:Hk; [|done].
  intros _. rewrite (parseDescription_found _ _ Hk). cbn [prefix suffix].
  pose proof (Index_Some_split _ _ _ Hk) as Hs.
  destruct (trimRight_split (strings.sliceTo s k)) as (x & Hx & Hx').
  destruct (trimLeft_split (strings.sliceFrom s (k + String.length delim)))
    as (y & Hy & Hy').
  exists x, y. split; [|done].
  rewrite <- Hy, <- append_assoc, <- Hx. exact Hs.
Qed.

Lemma parse_keeps_content_witness :
  strings.Contains (Description remoteX) delim = true ∧
  ∃ x y,
    Description remoteX =
      prefix (parseDescription (Description remoteX)) +:+ x +:+ delim +:+ y +:+
      suffix (parseDescription (Description remoteX)) ∧
    (x = EmptyString ∨ x = nl) ∧ (y = EmptyString ∨ y = nl).
Proof.
  split; [reflexivity|].
  exact (parse_keeps_content (Description remoteX) eq_refl).
Defined.

Lemma export_preserves_parse_aux (ev : Event) :
  parseDescription (exportedDescription ev) = parseDescription (Description ev).
Proof. apply parse_String_parse. Qed.

(** X4 — exporting does not change what is parsed: the exported
    description of an event parses to the prefix and the suffix of its
    description. *)
Theorem export_preserves_parse (ev : Event) :
  parseDescription (exportedDescription ev) = parseDescription (Description ev).
Proof. apply parse_String_parse. Qed.

Lemma parse_newUpdate (r d : Event) :
  parseDescription (Description (newUpdate r d)) =
    mkDescription (prefix (parseDescription (Description r))) (Description d).
Proof. unfold newUpdate. simpl. apply parse_String, parse_prefix_clean. Qed.

(** X5 — the description of an update parses to the annotation found in
    the calendar and the whole description of the source event, and it
    is written as it is: exporting it changes nothing. *)
Theorem update_description_is_exported (r d : Event) :
  parseDescription (Description (newUpdate r d)) =
    mkDescription (prefix (parseDescription (Description r))) (Description d) ∧
  exportedDescription (newUpdate r d) = Description (newUpdate r d).
Proof.
  split; [apply parse_newUpdate|].
  unfold exportedDescription. by rewrite parse_newUpdate.
Qed.

(** X6 — an update settles the difference exactly when the description
    of the source event is its own managed part: the source event equals
    the update under the equality policy if and only if parsing its
    description leaves the whole description as the suffix, which is so
    when the description contains no delimiter. *)
Theorem update_settles (r d : Event) :
  (equal d (newUpdate r d) = true ↔
     suffix (parseDescription (Description d)) = Description d) ∧
  (strings.Contains (Description d) delim = false →
   equal d (newUpdate r d) = true).
Proof.
  assert (equal d (newUpdate r d) = true ↔
            suffix (parseDescription (Description d)) = Description d) as Hiff.
  { rewrite equal_spec, parse_newUpdate. simpl. tauto. }
  split; [exact Hiff|]. intros Hc. apply Hiff.
  apply Contains_false in Hc. by rewrite (parseDescription_absent _ Hc).
Qed.

Lemma update_settles_witness :
  strings.Contains (Description desiredX) delim = false ∧
  equal desiredX (newUpdate remoteX desiredX) = true.
Proof.
  split; [reflexivity|].
  exact (proj2 (update_settles remoteX desiredX) eq_refl).
Defined.

(** ** The reconciler *)

Lemma Changes_eta (ch : Changes) :
  ch = mkChanges (Deletes ch) (Updates ch) (Adds ch).
Proof. by destruct ch. Qed.

Lemma getOperations_eq now cal src (D U A : list Event) :
  Deletes (calLoop (buildSrcMap now src) cal).1 = D →
  Updates (calLoop (buildSrcMap now src) cal).1 = U →
  (map_to_list (calLoop (buildSrcMap now src) cal).2).*2 = A →
  getOperations now cal src = mkChanges D U A.
Proof.
  intros <- <- <-. rewrite (Changes_eta (getOperations now cal src)).
  by rewrite getOperations_Deletes, getOperations_Updates, getOperations_Adds.
Qed.

Lemma live_live now src : live now (live now src) = live now src.
Proof.
  unfold live. induction src as [|d src IH]; [done|].
  destruct (Time_Before (End_ d) now) eqn:Hd.
  - rewrite (filter_cons_False _ d src); [done | congruence].
  - rewrite (filter_cons_True _ d src) by done.
    by rewrite filter_cons_True, IH.
Qed.

Lemma calLoop_empty (l : list Event) :
  calLoop ∅ l = (mkChanges l [] [], ∅).
Proof.
  induction l as [|r l IH]; [done|].
  rewrite calLoop_cons, delete_empty, IH. unfold deletesOf, updatesOf.
  by rewrite lookup_empty.
Qed.



Lemma buildSrcMap_live now src :
  buildSrcMap now (live now src) = buildSrcMap now src.
Proof. apply map_eq. intros k. by rewrite !buildSrcMap_lookup, live_live. Qed.

(** X8 — desired events that ended before [now] are invisible: the
    reconciliation gives the same changes as for the desired events that
    are left when they are removed from the input. *)
Theorem expired_events_are_ignored (now : Time) (cal src : list Event) :
  getOperations now cal (live now src) = getOperations now cal src.
Proof. unfold getOperations. by rewrite buildSrcMap_live. Qed.

(** X9 — with no desired event left (none given, or all ended before
    [now]) every remote event is deleted, in the order of the input, and
    nothing is updated or added. *)
Theorem nothing_desired_deletes_all (now : Time) (cal src : list Event) :
  Forall (λ d, Time_Before (End_ d) now = true) src →
  getOperations now cal src = mkChanges cal [] [].
Proof.
  intros Hall. rewrite Forall_forall in Hall.
  assert (buildSrcMap now src = ∅) as Hm.
  { apply map_empty. intros k. apply buildSrcMap_None. auto. }
  apply getOperations_eq; rewrite Hm, calLoop_empty; simpl; done.
Qed.

Lemma nothing_desired_deletes_all_witness :
  Forall (λ d, Time_Before (End_ d) (utc 500) = true) [desiredX; desiredY] ∧
  getOperations (utc 500) [remoteX; remoteX2] [desiredX; desiredY]
    = mkChanges [remoteX; remoteX2] [] [].
Proof.
  assert (Forall (λ d, Time_Before (End_ d) (utc 500) = true) [desiredX; desiredY])
    as H by (by repeat constructor).
  split; [exact H|].
  exact (nothing_desired_deletes_all (utc 500) [remoteX; remoteX2]
           [desiredX; desiredY] H).
Defined.

(** X10 — with an empty calendar nothing is deleted or updated, and the
    adds are the desired events that have not ended before [now], when
    their sourceIDs are pairwise distinct. *)
Theorem empty_calendar_adds_all (now : Time) (src : list Event) :
  NoDup (SrcID <$> live now src) →
  Deletes (getOperations now [] src) = [] ∧
  Updates (getOperations now [] src) = [] ∧
  Adds (getOperations now [] src) ≡ₚ live now src.
Proof.
  intros Hnd.
  rewrite getOperations_Deletes, getOperations_Updates, getOperations_Adds.
  rewrite calLoop_nil. simpl. split; [done|]. split; [done|].
  by apply buildSrcMap_values.
Qed.

Lemma empty_calendar_adds_all_witness :
  NoDup (SrcID <$> live (utc 0) [desiredX; desiredY]) ∧
  Deletes (getOperations (utc 0) [] [desiredX; desiredY]) = [] ∧
  Updates (getOperations (utc 0) [] [desiredX; desiredY]) = [] ∧
  Adds (getOperations (utc 0) [] [desiredX; desiredY]) ≡ₚ
    live (utc 0) [desiredX; desiredY].
Proof.
  assert (NoDup (SrcID <$> live (utc 0) [desiredX; desiredY])) as Hnd.
  { change (NoDup ["x"; "y"]). repeat constructor.
    - intros [?|H]%elem_of_cons; [done|]. by apply not_elem_of_nil in H.
    - apply not_elem_of_nil. }
  split; [exact Hnd|].
  exact (empty_calendar_adds_all (utc 0) [desiredX; desiredY] Hnd).
Defined.

(** X11 — the last write wins: under each sourceID the lookup map holds
    the last desired event with that sourceID among those that have not
    ended before [now], and nothing when there is none. *)
Theorem last_desired_event_wins (now : Time) (src : list Event) (k : string) :
  buildSrcMap now src !! k = last (filter (λ d, SrcID d = k) (live now src)).
Proof. apply buildSrcMap_lookup. Qed.

Lemma Updates_origin (m : gmap string Event) (l : list Event) :
  Forall (λ u, ∃ r d, r ∈ l ∧ m !! SrcID r = Some d ∧ equal d r = false ∧
                      u = newUpdate r d)
         (Updates (calLoop m l).1).
Proof.
  revert m. induction l as [|r l IH]; intros m; [by constructor|].
  rewrite calLoop_cons. simpl. apply Forall_app. split.
  - unfold updatesOf. destruct (m !! SrcID r) as [d|] eqn:Hd; [|by constructor].
    destruct (equal d r) eqn:He; constructor; [|by constructor].
    exists r, d. split; [by left|]. done.
  - eapply Forall_impl; [apply IH|]. simpl.
    intros u (r' & d & Hr' & Hd & He & ->).
    apply lookup_delete_Some in Hd as [_ Hd].
    exists r', d. split; [by right|]. done.
Qed.

Lemma Updates_NoDup (m : gmap string Event) (l : list Event) :
  keyed m → NoDup (SrcID <$> Updates (calLoop m l).1).
Proof.
  revert m. induction l as [|r l IH]; intros m Hm; [constructor|].
  rewrite calLoop_cons. simpl. rewrite fmap_app. apply NoDup_app.
  split; [|split].
  - unfold updatesOf. destruct (m !! SrcID r) as [d|]; [|constructor].
    destruct (equal d r); [constructor|]. apply NoDup_singleton.
  - intros k Hk Hk'.
    assert (k = SrcID r) as ->.
    { unfold updatesOf in Hk. destruct (m !! SrcID r) as [d|] eqn:Hd;
        [|by apply not_elem_of_nil in Hk].
      destruct (equal d r); [by apply not_elem_of_nil in Hk|].
      apply list_elem_of_singleton in Hk. subst k. simpl. by apply Hm in Hd. }
    apply list_elem_of_fmap in Hk' as (u & Hu & Hin).
    pose proof (Updates_SrcID _ l (keyed_delete _ (SrcID r) Hm)) as HF.
    rewrite Forall_forall in HF. destruct (HF u Hin) as [[x Hx] _].
    rewrite <- Hu, lookup_delete_eq in Hx. done.
  - by apply IH, keyed_delete.
Qed.

(** X12 — every update comes from a matched pair: it is [newUpdate r d]
    for a remote event [r] of the input and a desired event [d] of the
    input that has not ended before [now], has the sourceID of [r] and
    differs from [r] under the equality policy; and no two updates carry
    the same sourceID. *)
Theorem updates_come_from_pairs (now : Time) (cal src : list Event) :
  Forall (λ u, ∃ r d, r ∈ cal ∧ d ∈ src ∧ SrcID d = SrcID r ∧
                      Time_Before (End_ d) now = false ∧
                      equal d r = false ∧ u = newUpdate r d)
         (Updates (getOperations now cal src)) ∧
  NoDup (SrcID <$> Updates (getOperations now cal src)).
Proof.
  rewrite getOperations_Updates. split.
  - eapply Forall_impl; [apply Updates_origin|]. simpl.
    intros u (r & d & Hr & Hd & He & ->).
    apply buildSrcMap_lookup_Some in Hd as (? & ? & ?). by exists r, d.
  - apply Updates_NoDup, buildSrcMap_keyed.
Qed.

(** X13 — the adds are desired events of the input that have not ended
    before [now] and whose sourceID no remote event carries; no two adds
    carry the same sourceID. *)
Theorem adds_are_unmatched (now : Time) (cal src : list Event) :
  Forall (λ d, d ∈ src ∧ Time_Before (End_ d) now = false ∧
               SrcID d ∉ SrcID <$> cal)
         (Adds (getOperations now cal src)) ∧
  NoDup (SrcID <$> Adds (getOperations now cal src)).
Proof.
  split.
  - apply Forall_forall. intros d [Hd Hin]%elem_of_Adds.
    apply buildSrcMap_lookup_Some in Hd as (? & ? & ?). done.
  - rewrite getOperations_Adds.
    set (m' := (calLoop (buildSrcMap now src) cal).2).
    assert (keyed m') as Hk by apply calLoop_keyed, buildSrcMap_keyed.
    assert (SrcID <$> (map_to_list m').*2 = (map_to_list m').*1) as ->.
    { rewrite <- list_fmap_compose. apply Forall_fmap_ext_1, Forall_forall.
      intros [k d] Hin%elem_of_map_to_list. simpl. by apply Hk in Hin. }
    apply NoDup_fst_map_to_list.
Qed.

(** The deletes depend on the map only through the keys of the remote
    events. *)
Lemma Deletes_ext (m1 m2 : gmap string Event) (l : list Event) :
  (∀ r, r ∈ l → m1 !! SrcID r = m2 !! SrcID r) →
  Deletes (calLoop m1 l).1 = Deletes (calLoop m2 l).1.
Proof.
  revert m1 m2. induction l as [|r l IH]; intros m1 m2 H; [done|].
  rewrite !calLoop_cons. simpl. f_equal.
  - unfold deletesOf. rewrite (H r) by by left. done.
  - apply IH. intros r' Hr'. rewrite !lookup_delete.
    case_decide; [done|]. apply H. by right.
Qed.

Lemma Deletes_NoDup (m : gmap string Event) (l : list Event) :
  NoDup (SrcID <$> l) →
  Deletes (calLoop m l).1 = filter (λ r, m !! SrcID r = None) l.
Proof.
  induction l as [|r l IH]; [done|].
  rewrite fmap_cons, NoDup_cons. intros [Hr Hnd].
  rewrite calLoop_cons. simpl.
  rewrite (Deletes_ext (delete (SrcID r) m) m l).
  - rewrite IH by done. unfold deletesOf.
    destruct (m !! SrcID r) as [d|] eqn:Hd.
    + rewrite filter_cons_False; [done|]. by rewrite Hd.
    + by rewrite filter_cons_True.
  - intros r' Hr'. rewrite lookup_delete_ne; [done|].
    intros Heq. apply Hr. rewrite Heq. by apply list_elem_of_fmap_2.
Qed.

(** X14 — the deletes are remote events of the input, in the order of
    the input; when the remote events carry pairwise distinct sourceIDs,
    they are exactly the remote events whose sourceID the lookup map does
    not hold. *)
Theorem deletes_are_unmatched (now : Time) (cal src : list Event) :
  Deletes (getOperations now cal src) `sublist_of` cal ∧
  (NoDup (SrcID <$> cal) →
   Deletes (getOperations now cal src) =
     filter (λ r, buildSrcMap now src !! SrcID r = None) cal).
Proof.
  rewrite getOperations_Deletes. split; [apply Deletes_sublist|].
  apply Deletes_NoDup.
Qed.

Lemma deletes_are_unmatched_witness :
  NoDup (SrcID <$> [remoteX]) ∧
  Deletes (getOperations (utc 0) [remoteX] [desiredY]) =
    filter (λ r, buildSrcMap (utc 0) [desiredY] !! SrcID r = None) [remoteX].
Proof.
  assert (NoDup (SrcID <$> [remoteX])) as Hnd by apply NoDup_singleton.
  split; [exact Hnd|].
  exact (proj2 (deletes_are_unmatched (utc 0) [remoteX] [desiredY]) Hnd).
Defined.

Lemma buildSrcMap_size now src :
  length (map_to_list (buildSrcMap now src)) ≤ length (live now src).
Proof.
  rewrite <- (length_fmap fst (map_to_list _)), <- (length_fmap SrcID (live now src)).
  apply submseteq_length, NoDup_submseteq; [apply NoDup_fst_map_to_list|].
  intros k ([k' d] & -> & Hin%elem_of_map_to_list)%list_elem_of_fmap. simpl.
  apply buildSrcMap_lookup_Some in Hin as (Hd & <- & He).
  apply list_elem_of_fmap_2. by apply elem_of_live.
Qed.

(** X15 — there are never more operations than events: the deletes and
    the updates together are at most as many as the remote events, and
    the updates and the adds together are at most as many as the desired
    events that have not ended before [now]. *)
Theorem operations_are_bounded (now : Time) (cal src : list Event) :
  length (Deletes (getOperations now cal src)) +
    length (Updates (getOperations now cal src)) ≤ length cal ∧
  length (Updates (getOperations now cal src)) +
    length (Adds (getOperations now cal src)) ≤ length (live now src).
Proof.
  destruct (calLoop_partition (buildSrcMap now src) cal (buildSrcMap_keyed _ _))
    as (U & P & Hl & Hv & HU & _ & _).
  rewrite getOperations_Deletes, getOperations_Updates, getOperations_Adds.
  apply Permutation_length in Hl. apply Permutation_length in Hv.
  rewrite !length_app, !length_fmap in Hl. rewrite !length_app, !length_fmap in Hv.
  rewrite HU, !length_fmap. pose proof (buildSrcMap_size now src). lia.
Qed.

(** ** The write path *)

Section WritePath.
Variable fmt : Time → string.
Variable serve : request → bool.

Lemma forEach_ext (f g : Event → op) evs sent :
  (∀ ev s, f ev s = g ev s) → forEach f evs sent = forEach g evs sent.
Proof.
  intros H. revert sent. induction evs as [|ev evs IH]; intros sent; [done|].
  simpl. rewrite H. destruct (g ev sent) as [[] s]; [apply IH | done].
Qed.

Lemma forEach_skip evs sent :
  forEach (λ _ s, (true, s)) evs sent = (true, sent).
Proof. induction evs as [|ev evs IH]; [done|]. simpl. apply IH. Qed.

Lemma forEach_send (g : Event → request) evs sent :
  forEach (λ ev, send serve (g ev)) evs sent =
    (forallb serve (g <$> evs), sent ++ untilFailure serve (g <$> evs)).
Proof.
  revert sent. induction evs as [|ev evs IH]; intros sent.
  - simpl. by rewrite app_nil_r.
  - simpl. unfold send at 1. destruct (serve (g ev)); simpl.
    + rewrite IH. by rewrite <- app_assoc.
    + done.
Qed.

Lemma untilFailure_app (a b : list request) :
  untilFailure serve (a ++ b) =
    if forallb serve a then a ++ untilFailure serve b else untilFailure serve a.
Proof.
  induction a as [|rq a IH]; [done|]. simpl.
  destruct (serve rq); simpl; [|done]. rewrite IH. by destruct (forallb serve a).
Qed.

Lemma untilFailure_all (rqs : list request) :
  forallb serve rqs = true → untilFailure serve rqs = rqs.
Proof.
  induction rqs as [|rq rqs IH]; [done|]. simpl.
  intros [-> H]%andb_true_iff. by rewrite IH.
Qed.

(** X16 — in [nop] mode nothing is sent: applying any changes sends no
    request and succeeds, and [Import] returns the computed changes. *)
Theorem nop_sends_nothing (c : cal) (changes : Changes) (sent : list request)
    (now : Time) (calEvents srcEvents : list Event) :
  nop c = true →
  applyChanges fmt serve c changes sent = (true, sent) ∧
  Import fmt serve c now calEvents srcEvents =
    (Some (getOperations now calEvents srcEvents), []).
Proof.
  intros Hnop.
  assert (∀ ch s, applyChanges fmt serve c ch s = (true, s)) as H.
  { intros ch s. unfold applyChanges.
    rewrite (forEach_ext (remove serve c) (λ _ s, (true, s)))
      by (intros; unfold remove; by rewrite Hnop).
    rewrite forEach_skip. simpl.
    rewrite (forEach_ext (update fmt serve c) (λ _ s, (true, s)))
      by (intros; unfold update; by rewrite Hnop).
    rewrite forEach_skip. simpl.
    rewrite (forEach_ext (add fmt serve c) (λ _ s, (true, s)))
      by (intros; unfold add; by rewrite Hnop).
    apply forEach_skip. }
  split; [apply H|]. unfold Import. by rewrite H.
Qed.

(** X17 — outside [nop] mode the requests go out in the order deletes,
    updates, adds, each list in its own order, up to and including the
    first request that fails; the result is success exactly when no
    request failed, and then every request was sent. *)
Theorem requests_in_order_until_failure
    (c : cal) (changes : Changes) (sent : list request)
    (now : Time) (calEvents srcEvents : list Event) :
  nop c = false →
  applyChanges fmt serve c changes sent =
    (forallb serve (requestsOf fmt c changes),
     sent ++ untilFailure serve (requestsOf fmt c changes)) ∧
  Import fmt serve c now calEvents srcEvents =
    (let changes := getOperations now calEvents srcEvents in
     (if forallb serve (requestsOf fmt c changes) then Some changes else None,
      untilFailure serve (requestsOf fmt c changes))) ∧
  (forallb serve (requestsOf fmt c changes) = true →
   untilFailure serve (requestsOf fmt c changes) = requestsOf fmt c changes).
Proof.
  intros Hnop.
  assert (∀ ch s, applyChanges fmt serve c ch s =
            (forallb serve (requestsOf fmt c ch),
             s ++ untilFailure serve (requestsOf fmt c ch))) as H.
  { intros ch s. unfold applyChanges, requestsOf.
    rewrite !forallb_app, !untilFailure_app.
    rewrite (forEach_ext (remove serve c)
               (λ ev, send serve (EventsDelete (calID c) (calEventID ev))))
      by (intros; unfold remove; by rewrite Hnop).
    rewrite forEach_send.
    destruct (forallb serve (_ <$> Deletes ch)) eqn:HD; simpl; [|done].
    rewrite (untilFailure_all _ HD).
    rewrite (forEach_ext (update fmt serve c)
               (λ ev, send serve (EventsUpdate (calID c) (calEventID ev)
                                               (makeCalEvent fmt c ev))))
      by (intros; unfold update; by rewrite Hnop).
    rewrite forEach_send.
    destruct (forallb serve (_ <$> Updates ch)) eqn:HU; simpl;
      [|by rewrite <- app_assoc].
    rewrite (untilFailure_all _ HU).
    rewrite (forEach_ext (add fmt serve c)
               (λ ev, send serve (EventsInsert (calID c) (makeCalEvent fmt c ev))))
      by (intros; unfold add; by rewrite Hnop).
    rewrite forEach_send. by rewrite <- !app_assoc. }
  split; [apply H|]. split; [|apply untilFailure_all].
  unfold Import. rewrite H. by destruct (forallb _ _).
Qed.

Lemma idKey_ne (c : cal) : idKey c ≠ privateKey c.
Proof.
  unfold idKey. intros H. apply (f_equal String.length) in H.
  rewrite length_append in H. simpl in H. lia.
Qed.

(** X18 — the private properties written with an event: the marker
    [privateKey] is "True", the id key holds the sourceID of the event,
    and there is no other property. *)
Theorem written_private_properties (c : cal) (ev : Event) (k : string) :
  ce_Private (makeCalEvent fmt c ev) !! privateKey c = Some "True" ∧
  ce_Private (makeCalEvent fmt c ev) !! idKey c = Some (SrcID ev) ∧
  (is_Some (ce_Private (makeCalEvent fmt c ev) !! k) ↔
     k = privateKey c ∨ k = idKey c).
Proof.
  pose proof (idKey_ne c) as Hne. simpl. split; [|split].
  - by rewrite lookup_insert_ne, lookup_insert_eq.
  - by rewrite lookup_insert_eq.
  - rewrite lookup_insert_is_Some, lookup_insert_is_Some, lookup_empty.
    split.
    + intros [->|[_ [->|[_ []%is_Some_None]]]]; auto.
    + intros [->| ->]; auto.
Qed.

End WritePath.

Lemma nop_sends_nothing_witness :
  nop (mkCal "scope" "primary" true) = true ∧
  Import sampleFormat (λ _, false) (mkCal "scope" "primary" true) (utc 0)
         [remoteX] [desiredX; desiredY] =
    (Some (getOperations (utc 0) [remoteX] [desiredX; desiredY]), []).
Proof.
  split; [reflexivity|].
  exact (proj2 (nop_sends_nothing sampleFormat (λ _, false)
                  (mkCal "scope" "primary" true) (mkChanges [] [] []) []
                  (utc 0) [remoteX] [desiredX; desiredY] eq_refl)).
Defined.

Lemma requests_in_order_until_failure_witness :
  nop (mkCal "scope" "primary" false) = false ∧
  (Import sampleFormat (λ _, true) (mkCal "scope" "primary" false) (utc 0)
          [remoteX] [desiredX; desiredY]).2 =
    requestsOf sampleFormat (mkCal "scope" "primary" false)
               (getOperations (utc 0) [remoteX] [desiredX; desiredY]).
Proof.
  split; [reflexivity|].
  destruct (requests_in_order_until_failure sampleFormat (λ _, true)
              (mkCal "scope" "primary" false)
              (getOperations (utc 0) [remoteX] [desiredX; desiredY]) []
              (utc 0) [remoteX] [desiredX; desiredY] eq_refl)
    as (_ & -> & Hall).
  cbv zeta. cbn [snd]. apply Hall. reflexivity.
Defined.

(** ** The read path *)

Section ReadBack.
Variable fmt : Time → string.
Variable parse : string → option Time.

(** X19 — what is written reads back as the same event: when the start
    and the end of an event survive formatting and parsing as the same
    instants, the [calendar.Event] that [makeCalEvent] builds parses,
    under the id key of the same configuration, to an event with the id
    of the calendar, the sourceID of the event and the exported
    description, and this event equals the original under the equality
    policy. *)
Theorem written_event_reads_back
    (c : cal) (ev : Event) (id : string) (s e : Time) :
  parse (fmt (Start ev)) = Some s →
  parse (fmt (End_ ev)) = Some e →
  Time_Equal (Start ev) s = true →
  Time_Equal (End_ ev) e = true →
  parseEvent parse (asItem id (makeCalEvent fmt c ev)) (idKey c) =
    inr (mkEvent (Title ev) s e (Where ev) (exportedDescription ev)
                 (SrcID ev) id) ∧
  equal ev (mkEvent (Title ev) s e (Where ev) (exportedDescription ev)
                    (SrcID ev) id) = true.
Proof.
  intros Hs He Hs' He'. split.
  - unfold parseEvent. simpl. rewrite Hs, He. by rewrite lookup_insert_eq.
  - apply equal_spec. simpl. unfold Time_Equal in *.
    apply Z.eqb_eq in Hs', He'. fold (exportedDescription ev).
    by rewrite export_preserves_parse_aux.
Qed.

(** [parseEvent] fails exactly when the start or the end does not
    parse, and the start is reported first; when both parse, the event
    has the sourceID stored under the id key, or the empty sourceID when
    the item has no extended properties or no such key. *)
Lemma parseEvent_result (item : calendarItem) (k : string) :
  (parse (ci_StartDateTime item) = None →
   parseEvent parse item k = inl (BadStart (ci_StartDateTime item))) ∧
  (is_Some (parse (ci_StartDateTime item)) →
   parse (ci_EndDateTime item) = None →
   parseEvent parse item k = inl (BadEnd (ci_EndDateTime item))) ∧
  (∀ s e, parse (ci_StartDateTime item) = Some s →
          parse (ci_EndDateTime item) = Some e →
          ∃ r, parseEvent parse item k = inr r ∧
               Start r = s ∧ End_ r = e ∧ calEventID r = ci_Id item ∧
               SrcID r =
                 match ci_ExtendedProperties item with
                 | Some private => default EmptyString (private !! k)
                 | None => EmptyString
                 end).
Proof.
  unfold parseEvent. repeat split.
  - by intros ->.
  - intros [s ->] ->. done.
  - intros s e -> ->. eexists. split; [reflexivity|].
    by destruct (ci_ExtendedProperties item).
Qed.

(** X20 — a calendar item without the id property is deleted: it parses
    to an event with the empty sourceID, and the reconciliation deletes
    such an event when no desired event that has not ended before [now]
    has the empty sourceID. *)
Theorem item_without_id_is_deleted
    (item : calendarItem) (k : string) (r : Event)
    (now : Time) (cal src : list Event) :
  parseEvent parse item k = inr r →
  (ci_ExtendedProperties item = None ∨
   ∃ private, ci_ExtendedProperties item = Some private ∧ private !! k = None) →
  Forall (λ d, Time_Before (End_ d) now = false → SrcID d ≠ EmptyString) src →
  r ∈ cal →
  SrcID r = EmptyString ∧ r ∈ Deletes (getOperations now cal src).
Proof.
  intros Hp Hprops Hsrc Hr.
  assert (SrcID r = EmptyString) as Hk.
  { unfold parseEvent in Hp.
    destruct (parse (ci_StartDateTime item)); [|done].
    destruct (parse (ci_EndDateTime item)); [|done].
    injection Hp as <-. simpl.
    destruct Hprops as [-> | (p & -> & Hp)]; [done|]. by rewrite Hp. }
  split; [done|]. apply elem_of_Deletes_absent; [done|].
  rewrite Hk. apply buildSrcMap_None. intros d Hd Hd'.
  rewrite Forall_forall in Hsrc. specialize (Hsrc d Hd).
  destruct (Time_Before (End_ d) now); [done|]. by destruct Hsrc.
Qed.

Lemma parseItems_acc (k : string) (items : list calendarItem) (acc : list Event) :
  parseItems parse k items acc =
    match parseItems parse k items [] with
    | inr evs => inr (acc ++ evs)
    | inl e => inl e
    end.
Proof.
  revert acc. induction items as [|it items IH]; intros acc.
  - simpl. by rewrite app_nil_r.
  - simpl. destruct (parseEvent parse it k) as [e|ev]; [done|].
    rewrite IH. symmetry. rewrite IH.
    destruct (parseItems parse k items []); [done|]. by rewrite <- app_assoc.
Qed.

Lemma parseItems_inr (k : string) (items : list calendarItem) (evs : list Event) :
  parseItems parse k items [] = inr evs ↔
    Forall2 (λ it ev, parseEvent parse it k = inr ev) items evs.
Proof.
  revert evs. induction items as [|it items IH]; intros evs.
  - simpl. split.
    + intros [= <-]. constructor.
    + by intros ->%Forall2_nil_inv_l.
  - simpl. destruct (parseEvent parse it k) as [e|ev] eqn:Hit.
    + split; [done|]. intros (ev' & evs' & H & _ & _)%Forall2_cons_inv_l.
      congruence.
    + rewrite parseItems_acc.
      destruct (parseItems parse k items []) as [e|evs'] eqn:Hrest.
      * split; [done|]. intros (ev' & evs' & _ & H & _)%Forall2_cons_inv_l.
        by apply IH in H.
      * split.
        -- intros [= <-]. constructor; [done|]. by apply IH.
        -- intros (ev' & evs'' & H1 & H2 & ->)%Forall2_cons_inv_l.
           apply IH in H2. rewrite Hit in H1.
           injection H1 as ->. injection H2 as ->. done.
Qed.

Lemma parseItems_fail (k : string) (pre post : list calendarItem)
    (it : calendarItem) (e : parseError) :
  Forall (λ i, ∃ ev, parseEvent parse i k = inr ev) pre →
  parseEvent parse it k = inl e →
  parseItems parse k (pre ++ it :: post) [] = inl (ItemFailed (ci_Summary it) e).
Proof.
  intros Hpre Hit. induction Hpre as [|i pre [ev Hi] _ IH]; simpl.
  - by rewrite Hit.
  - rewrite Hi, parseItems_acc. by rewrite IH.
Qed.

(** X21 — [fetch] returns one event per listed item, in the order of the
    list, each the parse of its item; it fails when the list request
    failed, and otherwise with the first item that does not parse. *)
Theorem fetch_result (c : cal) (items : list calendarItem) :
  fetch parse c None = inl ListFailed ∧
  (∀ evs, fetch parse c (Some items) = inr evs ↔
          Forall2 (λ it ev, parseEvent parse it (idKey c) = inr ev) items evs) ∧
  (∀ pre it post e,
     items = pre ++ it :: post →
     Forall (λ i, ∃ ev, parseEvent parse i (idKey c) = inr ev) pre →
     parseEvent parse it (idKey c) = inl e →
     fetch parse c (Some items) = inl (ItemFailed (ci_Summary it) e)).
Proof.
  split; [done|]. split.
  - intros evs. apply parseItems_inr.
  - intros pre it post e -> Hpre Hit. by apply parseItems_fail.
Qed.

End ReadBack.

Lemma written_event_reads_back_witness :
  sampleParse (sampleFormat (Start desiredX)) = Some (utc 100) ∧
  sampleParse (sampleFormat (End_ desiredX)) = Some (utc 200) ∧
  equal desiredX
        (mkEvent (Title desiredX) (utc 100) (utc 200) (Where desiredX)
                 (exportedDescription desiredX) (SrcID desiredX) "cal-9") = true.
Proof.
  split; [reflexivity|]. split; [reflexivity|].
  exact (proj2 (written_event_reads_back sampleFormat sampleParse
                  (mkCal "scope" "primary" false) desiredX "cal-9"
                  (utc 100) (utc 200) eq_refl eq_refl eq_refl eq_refl)).
Defined.

Lemma item_without_id_is_deleted_witness :
  let item := mkCalendarItem "cal-7" "stray" "" "" "start" "end" None in
  let r := mkEvent "stray" (utc 100) (utc 200) "" "" "" "cal-7" in
  parseEvent sampleParse item "scopeID" = inr r ∧
  r ∈ Deletes (getOperations (utc 0) [r] [desiredX]).
Proof.
  set (item := mkCalendarItem "cal-7" "stray" "" "" "start" "end" None).
  set (r := mkEvent "stray" (utc 100) (utc 200) "" "" "" "cal-7").
  assert (Forall (λ d, Time_Before (End_ d) (utc 0) = false →
                       SrcID d ≠ EmptyString) [desiredX]) as Hsrc
    by (by repeat constructor).
  assert (r ∈ [r]) as Hr by apply list_elem_of_here.
  split; [reflexivity|].
  exact (proj2 (item_without_id_is_deleted sampleParse item "scopeID" r (utc 0)
                  [r] [desiredX] eq_refl (or_introl eq_refl) Hsrc Hr)).
Defined.

(** ** Options and Sync *)

Lemma Nop_ne_CalendarID (id : string) : Nop ≠ CalendarID id.
Proof.
  intros H. apply (f_equal (λ o : Opt, nop (o (mkCal "" "" false)))) in H.
  discriminate.
Qed.

Lemma applyOpts_cons (c : cal) (o : Opt) (opts : list Opt) :
  applyOpts c (o :: opts) = applyOpts (o c) opts.
Proof. reflexivity. Qed.

Lemma applyOpts_privateKey (c : cal) (opts : list Opt) :
  Forall offered opts → privateKey (applyOpts c opts) = privateKey c.
Proof.
  intros H. revert c. induction H as [|o opts Ho _ IH]; intros c; [done|].
  rewrite applyOpts_cons, IH. by destruct Ho as [-> | [id ->]].
Qed.

Lemma applyOpts_nop (c : cal) (opts : list Opt) :
  Forall offered opts →
  (nop (applyOpts c opts) = true ↔ nop c = true ∨ Nop ∈ opts).
Proof.
  intros H. revert c. induction H as [|o opts Ho _ IH]; intros c.
  - simpl. split; [auto|]. intros [?|?%not_elem_of_nil]; done.
  - rewrite applyOpts_cons, IH, elem_of_cons. destruct Ho as [-> | [id ->]].
    + simpl. split; auto.
    + simpl. split; [tauto|]. intros [?|[?%Nop_ne_CalendarID|?]]; tauto.
Qed.

Lemma applyOpts_only_Nop (c : cal) (opts : list Opt) :
  Forall (λ o, o = Nop) opts → calID (applyOpts c opts) = calID c.
Proof.
  intros H. revert c. induction H as [|o opts -> _ IH]; intros c; [done|].
  by rewrite applyOpts_cons, IH.
Qed.

(** X22 — options compose in their order: the options of the package
    never change the private key; the result is in [nop] mode exactly
    when the configuration was or [Nop] is among the options, wherever it
    stands; the calendar is the one of the last [CalendarID] option, and
    the one of the configuration when there is none. *)
Theorem options_compose (c : cal) (opts : list Opt) :
  Forall offered opts →
  privateKey (applyOpts c opts) = privateKey c ∧
  (nop (applyOpts c opts) = true ↔ nop c = true ∨ Nop ∈ opts) ∧
  (∀ pre id post,
     opts = pre ++ CalendarID id :: post → Forall (λ o, o = Nop) post →
     calID (applyOpts c opts) = id) ∧
  (Forall (λ o, o = Nop) opts → calID (applyOpts c opts) = calID c).
Proof.
  intros H. split; [by apply applyOpts_privateKey|].
  split; [by apply applyOpts_nop|]. split; [|apply applyOpts_only_Nop].
  intros pre id post -> Hpost. unfold applyOpts. rewrite foldl_app.
  cbn [foldl]. fold (applyOpts (CalendarID id (foldl (λ c o, o c) c pre)) post).
  by rewrite applyOpts_only_Nop.
Qed.

Lemma options_compose_witness :
  Forall offered [CalendarID "work"; Nop; CalendarID "home"] ∧
  privateKey (applyOpts (mkCal "scope" "primary" false)
                        [CalendarID "work"; Nop; CalendarID "home"]) = "scope" ∧
  nop (applyOpts (mkCal "scope" "primary" false)
                 [CalendarID "work"; Nop; CalendarID "home"]) = true ∧
  calID (applyOpts (mkCal "scope" "primary" false)
                   [CalendarID "work"; Nop; CalendarID "home"]) = "home".
Proof.
  assert (Forall offered [CalendarID "work"; Nop; CalendarID "home"]) as H.
  { apply Forall_cons. split; [right; by exists "work"|].
    apply Forall_cons. split; [by left|].
    apply Forall_cons. split; [right; by exists "home"|]. constructor. }
  destruct (options_compose (mkCal "scope" "primary" false)
              [CalendarID "work"; Nop; CalendarID "home"] H)
    as (Hkey & Hnop & Hid & _).
  split; [exact H|]. split; [exact Hkey|]. split.
  - apply Hnop. right. apply list_elem_of_further, list_elem_of_here.
  - apply (Hid [CalendarID "work"; Nop] "home" []); [reflexivity|constructor].
Defined.

Section SyncFacts.
Variable fmt : Time → string.
Variable parse : string → option Time.
Variable serve : request → bool.
Variable list_ : cal → option (list calendarItem).

(** X23 — a failed fetch is not reported: [Sync] then reconciles against
    an empty calendar.  Whatever it returns as changes has no deletes and
    no updates, and its adds are the desired events held in the lookup
    map, so events that the calendar already holds are inserted again. *)
Theorem failed_fetch_is_ignored
    (scope : string) (now : Time) (srcEvents : list Event) (opts : list Opt)
    (e : fetchError) :
  let c := applyOpts (mkCal scope "primary" false) opts in
  fetch parse c (list_ c) = inl e →
  Sync fmt parse serve list_ false scope now srcEvents opts =
    Import fmt serve c now [] srcEvents ∧
  (∀ changes,
     (Sync fmt parse serve list_ false scope now srcEvents opts).1 = Some changes →
     Deletes changes = [] ∧ Updates changes = [] ∧
     ∀ d, d ∈ Adds changes ↔ buildSrcMap now srcEvents !! SrcID d = Some d).
Proof.
  intros c Hf.
  assert (Sync fmt parse serve list_ false scope now srcEvents opts =
            Import fmt serve c now [] srcEvents) as HS.
  { unfold Sync. simpl. fold c. by rewrite Hf. }
  split; [exact HS|]. intros changes. rewrite HS. unfold Import.
  destruct (applyChanges _ _ _ _ _) as [[] sent]; simpl; [|done].
  intros [= <-]. split; [|split].
  - by rewrite getOperations_Deletes, calLoop_nil.
  - by rewrite getOperations_Updates, calLoop_nil.
  - intros d. rewrite elem_of_Adds.
    split; [tauto|]. intros H. split; [done|]. apply not_elem_of_nil.
Qed.


End SyncFacts.

Lemma failed_fetch_is_ignored_witness :
  fetch sampleParse (applyOpts (mkCal "scope" "primary" false) []) None
    = inl ListFailed ∧
  Sync sampleFormat sampleParse (λ _, true) (λ _, None) false "scope" (utc 0)
       [desiredX] [] =
    Import sampleFormat (λ _, true) (mkCal "scope" "primary" false) (utc 0)
           [] [desiredX].
Proof.
  split; [reflexivity|].
  exact (proj1 (failed_fetch_is_ignored sampleFormat sampleParse (λ _, true)
                  (λ _, None) "scope" (utc 0) [desiredX] [] ListFailed eq_refl)).
Defined.

